(** * Crossword CSP engine: a shallow embedding of [generate.py]

    The class [CrosswordCreator] of [src/generate.py] is embedded as a family
    of computations in a state-and-exception monad.  The state holds the two
    kinds of mutable Python objects the engine touches:

    - [self.domains], the Domain Store, a dict from slots to word
      collections;
    - the assignment dicts, which are passed around by reference and copied
      with [assignment.copy()]; they live in a store indexed by reference.

    Python exceptions ([KeyError], [IndexError], [ValueError]) are outcomes
    of their own, and the two loops whose termination is not structural
    ([while queue] in [ac3], the recursion of [backtrack]) take fuel. *)

From stdpp Require Import gmap strings list fin_maps sorting.

Set Default Proof Using "Type".
#[local] Set Warnings "-clear-no-such-hyp".

(** ** Data model *)

(** Words are Python [str] values. *)
Definition word : Type := string.

(** Modelled from the spec: the class [Variable] of [crossword.py] (not part
    of the sources at hand; [Variable] is a reserved word here, hence the
    module name).  A slot is identified by its starting cell (row, column),
    an orientation tag and a fixed length, and two slots are equal iff all
    fields match. *)
Module Var.
Inductive Direction : Set := ACROSS | DOWN.

Record t : Set := mk { i : nat; j : nat; direction : Direction; length : nat }.

#[global] Instance Direction_eq_dec : EqDecision Direction.
Proof. solve_decision. Defined.

#[global] Instance eq_dec : EqDecision t.
Proof. solve_decision. Defined.

Definition encode_dir (d : Direction) : bool :=
  match d with ACROSS => true | DOWN => false end.

Definition decode_dir (b : bool) : Direction :=
  if b then ACROSS else DOWN.

Definition to_tuple (v : t) : nat * nat * bool * nat :=
  (i v, j v, encode_dir (direction v), length v).

Definition of_tuple (p : nat * nat * bool * nat) : t :=
  let '(a, b, d, n) := p in mk a b (decode_dir d) n.

Lemma of_to_tuple v : of_tuple (to_tuple v) = v.
Proof. by destruct v as [a b [] n]. Qed.

#[global] Instance countable : Countable t :=
  inj_countable' to_tuple of_tuple of_to_tuple.
End Var.

(** An arc is an ordered pair of slots, an entry of the AC-3 work queue. *)
Definition arc : Type := Var.t * Var.t.

(** Modelled from the spec: the Puzzle Description, class [Crossword] of
    [crossword.py], which is not part of the sources at hand.  Only the
    members the engine reads are kept: the vocabulary [words] (in iteration
    order), the set of slots [variables] and the overlap relation
    [overlaps], a dict keyed by ordered pairs of slots whose values are
    either [None] or a pair of offsets [(i, j)], positions counted from 0
    in the two slots. *)
Record Crossword : Type := mkCrossword {
  words : list word;
  variables : gset Var.t;
  overlaps : gmap arc (option (nat * nat))
}.

(** An assignment is a dict from slots to words. *)
Abbreviation assignment := (gmap Var.t word).

(** Assignment dicts are handled by reference. *)
Definition ref : Type := nat.

(** The mutable state: [self.domains] and the store of assignment dicts.
    A domain is a Python collection of words, held in its iteration order;
    it starts as a copy of the vocabulary and is a list from
    [enforce_node_consistency] on. *)
Record State : Type := mkState {
  domains : gmap Var.t (list word);
  dicts : list assignment
}.

Definition set_domains (f : gmap Var.t (list word) → gmap Var.t (list word))
    (s : State) : State :=
  mkState (f (domains s)) (dicts s).

Definition set_dicts (f : list assignment → list assignment) (s : State) : State :=
  mkState (domains s) (f (dicts s)).

(** ** The monad *)

Inductive exn : Set := KeyError | IndexError | ValueError.

Inductive outcome (A : Type) : Type :=
  | Return (a : A) (s : State)
  | Raise (e : exn)
  | OutOfFuel.
Arguments Return {A} a s.
Arguments Raise {A} e.
Arguments OutOfFuel {A}.

Definition M (A : Type) : Type := State → outcome A.

Definition ret {A} (a : A) : M A := λ s, Return a s.

Definition bind {A B} (m : M A) (k : A → M B) : M B :=
  λ s, match m s with
       | Return a s' => k a s'
       | Raise e => Raise e
       | OutOfFuel => OutOfFuel
       end.

Definition raise {A} (e : exn) : M A := λ _, Raise e.

Definition out_of_fuel {A} : M A := λ _, OutOfFuel.

Declare Scope py_scope.
Delimit Scope py_scope with py.
Notation "x <- m ;; k" := (bind m (λ x, k))
  (at level 100, m at next level, right associativity) : py_scope.
Open Scope py_scope.

(** ** Primitive operations *)

(** Reading part of the state. *)
Definition gets {A} (f : State → A) : M A := λ s, Return (f s) s.

(** [w[k]] for a non-negative index [k] is [String.get k w]; it is [None]
    where Python raises [IndexError].  Expressions that only index strings
    are written in the option monad and enter [M] through [index_checked]. *)
Definition index_checked {A} (o : option A) : M A :=
  match o with
  | Some a => ret a
  | None => raise IndexError
  end.

(** [self.domains[v]] *)
Definition domains_get (v : Var.t) : M (list word) :=
  λ s, match domains s !! v with
       | Some d => Return d s
       | None => Raise KeyError
       end.

(** [self.domains[v] = d], and every in-place update of the collection
    [self.domains[v]] refers to. *)
Definition domains_set (v : Var.t) (d : list word) : M unit :=
  λ s, Return () (set_domains <[v := d]> s).

(** The keys of [self.domains], in iteration order. *)
Definition domains_keys : M (list Var.t) :=
  λ s, Return (map_to_list (domains s)).*1 s.

(** [d.remove(w)]: drops the first occurrence, fails when there is none. *)
Fixpoint list_remove (w : word) (d : list word) : option (list word) :=
  match d with
  | [] => None
  | w' :: d' =>
      if decide (w = w') then Some d'
      else cons w' <$> list_remove w d'
  end.

Definition domains_remove (v : Var.t) (w : word) : M unit :=
  d <- domains_get v ;;
  match list_remove w d with
  | Some d' => domains_set v d'
  | None => raise ValueError
  end.

(** Dereference of an assignment dict; references are only ever obtained
    from [dict_new] and [dict_copy], so the lookup is total. *)
Definition dict_read (r : ref) : M assignment :=
  λ s, Return (dicts s !!! r) s.

(** [dict()] *)
Definition dict_new : M ref :=
  λ s, Return (length (dicts s)) (set_dicts (λ h, h ++ [∅]) s).

(** [a.copy()] *)
Definition dict_copy (r : ref) : M ref :=
  λ s, Return (length (dicts s)) (set_dicts (λ h, h ++ [dicts s !!! r]) s).

(** [a[v] = w] *)
Definition dict_setitem (r : ref) (v : Var.t) (w : word) : M unit :=
  λ s, Return () (set_dicts (λ h, <[r := <[v := w]> (h !!! r)]> h) s).

Section Creator.
Context (crossword : Crossword).

(** [self.crossword.overlaps[x, y]] *)
Definition overlaps_get (x y : Var.t) : M (option (nat * nat)) :=
  match overlaps crossword !! (x, y) with
  | Some o => ret o
  | None => raise KeyError
  end.

(** The overlap of [(x, y)] is defined: the pair has an entry and it is a
    pair of offsets. *)
Definition overlap_defined (x y : Var.t) : bool :=
  match overlaps crossword !! (x, y) with
  | Some (Some _) => true
  | _ => false
  end.

(** Modelled from the spec: [Crossword.neighbors] of [crossword.py], not
    part of the sources at hand.  The neighbors of a slot are the slots of
    the puzzle, other than itself, that have a defined overlap with it. *)
Definition neighbors (var : Var.t) : gset Var.t :=
  filter (λ v, v ≠ var ∧ overlap_defined v var) (variables crossword).

(** [CrosswordCreator.__init__]: every slot starts with a copy of the
    vocabulary. *)
Definition init : State :=
  mkState (gset_to_gmap (words crossword) (variables crossword)) [].

(** *** [enforce_node_consistency] *)

Fixpoint enforce_node_consistency_loop (vars : list Var.t) : M unit :=
  match vars with
  | [] => ret ()
  | var :: vars =>
      d <- domains_get var ;;
      let consistent_values :=
        filter (λ value, String.length value = Var.length var) d in
      _ <- domains_set var consistent_values ;;
      enforce_node_consistency_loop vars
  end.

Definition enforce_node_consistency : M unit :=
  vars <- domains_keys ;;
  enforce_node_consistency_loop vars.

(** *** [revise] *)

(** [any(val_x[overlap_x] == val_y[overlap_y] for val_y in y_domain)]:
    both characters are fetched for each [val_y] in turn, and the
    iteration stops at the first agreement. *)
Fixpoint any_agree (val_x : word) (overlap_x overlap_y : nat)
    (y_domain : list word) : option bool :=
  match y_domain with
  | [] => Some false
  | val_y :: y_domain =>
      a ← String.get overlap_x val_x;
      b ← String.get overlap_y val_y;
      if decide (a = b) then Some true
      else any_agree val_x overlap_x overlap_y y_domain
  end.

(** The [for val_x in x_domain.copy()] loop.  [x_domain] and [y_domain]
    are references to the collections held in [self.domains], so each
    round reads them as they are at that point (this matters when [x] and
    [y] are the same slot). *)
Fixpoint revise_loop (x y : Var.t) (overlap_x overlap_y : nat)
    (copy : list word) (revised : bool) : M bool :=
  match copy with
  | [] => ret revised
  | val_x :: copy =>
      y_domain <- domains_get y ;;
      has_corresponding_value <-
        index_checked (any_agree val_x overlap_x overlap_y y_domain) ;;
      if negb has_corresponding_value then
        _ <- domains_remove x val_x ;;
        revise_loop x y overlap_x overlap_y copy true
      else revise_loop x y overlap_x overlap_y copy revised
  end.

Definition revise (x y : Var.t) : M bool :=
  let revised := false in
  overlap <- overlaps_get x y ;;
  match overlap with
  | None => ret revised
  | Some (overlap_x, overlap_y) =>
      x_domain <- domains_get x ;;
      _ <- domains_get y ;;
      revise_loop x y overlap_x overlap_y x_domain revised
  end.

(** *** [ac3] *)

(** [queue.pop()]: the last entry and the entries before it. *)
Definition list_pop (queue : list arc) : option (arc * list arc) :=
  match last queue with
  | Some a => Some (a, removelast queue)
  | None => None
  end.

(** The body of the [while] loop once [(x, y)] is popped: [Some b] when
    the body returns [b], [None] when the loop goes on; with the queue as
    the body leaves it. *)
Definition ac3_body (queue : list arc) (x y : Var.t) :
    M (option bool * list arc) :=
  revised <- revise x y ;;
  if revised then
    x_domain <- domains_get x ;;
    if bool_decide (x_domain = []) then ret (Some false, queue)
    else
      ret (None, queue ++ ((λ z, (z, x)) <$> elements (neighbors x ∖ {[ y ]})))
  else ret (None, queue).

Fixpoint ac3_loop (fuel : nat) (queue : list arc) : M (bool * list arc) :=
  match fuel with
  | 0 => out_of_fuel
  | S fuel =>
      match list_pop queue with
      | None => ret (true, queue)
      | Some ((x, y), queue) =>
          r <- ac3_body queue x y ;;
          match r with
          | (Some b, queue) => ret (b, queue)
          | (None, queue) => ac3_loop fuel queue
          end
      end
  end.

(** The number of words over all domains. *)
Definition total_words (s : State) : nat :=
  map_fold (λ _ d n, length d + n) 0 (domains s).

(** Enough fuel for the [while] loop from a given queue and state. *)
Definition ac3_fuel (queue : list arc) (s : State) : nat :=
  S (length queue + size (variables crossword) * total_words s).

Definition ac3 (arcs : option (list arc)) : M bool :=
  let queue :=
    match arcs with
    | Some arcs => arcs
    | None => (map_to_list (overlaps crossword)).*1
    end in
  fuel <- gets (ac3_fuel queue) ;;
  r <- ac3_loop fuel queue ;;
  ret r.1.

(** *** [assignment_complete] *)

Definition assignment_complete (assignment : ref) : M bool :=
  keys <- domains_keys ;;
  a <- dict_read assignment ;;
  ret (forallb (λ variable, bool_decide (is_Some (a !! variable))) keys).

(** *** [consistent] *)

(** The first loop, over the entries [var, assignment[var]]. *)
Fixpoint consistent_values (items : list (Var.t * word))
    (assigned_values : gset word) : bool :=
  match items with
  | [] => true
  | (var, w) :: items =>
      if bool_decide (Var.length var ≠ String.length w)
         || bool_decide (w ∈ assigned_values)
      then false
      else consistent_values items ({[ w ]} ∪ assigned_values)
  end.

(** The second loop, over the entries [(var1, var2), overlaps[var1, var2]]
    of the overlap relation; [None] is an [IndexError]. *)
Fixpoint consistent_overlaps (a : assignment)
    (items : list (arc * option (nat * nat))) : option bool :=
  match items with
  | [] => Some true
  | ((var1, var2), overlap_positions) :: items =>
      match a !! var1, a !! var2 with
      | Some w1, Some w2 =>
          match overlap_positions with
          | Some (overlap_x, overlap_y) =>
              c1 ← String.get overlap_x w1;
              c2 ← String.get overlap_y w2;
              if decide (c1 ≠ c2) then Some false
              else consistent_overlaps a items
          | None => consistent_overlaps a items
          end
      | _, _ => consistent_overlaps a items
      end
  end.

Definition consistent (assignment : ref) : M bool :=
  a <- dict_read assignment ;;
  if negb (consistent_values (map_to_list a) ∅) then ret false
  else index_checked (consistent_overlaps a (map_to_list (overlaps crossword))).

(** *** Sorting with a key *)

(** [l.sort(key=...)] computes the key of every element, in order, and
    then sorts stably on the keys. *)
Fixpoint decorate {A K} (key : A → M K) (l : list A) : M (list (K * A)) :=
  match l with
  | [] => ret []
  | x :: l =>
      k <- key x ;;
      kl <- decorate key l ;;
      ret ((k, x) :: kl)
  end.

Fixpoint insert_by {A K} (le : K → K → bool) (x : K * A) (l : list (K * A)) :
    list (K * A) :=
  match l with
  | [] => [x]
  | y :: l' => if le x.1 y.1 then x :: y :: l' else y :: insert_by le x l'
  end.

Definition stable_sort {A K} (le : K → K → bool) (l : list (K * A)) :
    list (K * A) :=
  foldr (insert_by le) [] l.

Definition sort_by_key {A K} (le : K → K → bool) (key : A → M K)
    (l : list A) : M (list A) :=
  kl <- decorate key l ;;
  ret (stable_sort le kl).*2.

(** *** [order_domain_values] *)

(** [sum(1 for val in domain if val[index_neighbor] != value[index_var])] *)
Fixpoint count_differ (value : word) (index_var index_neighbor : nat)
    (domain : list word) : option nat :=
  match domain with
  | [] => Some 0
  | val :: domain =>
      c1 ← String.get index_neighbor val;
      c2 ← String.get index_var value;
      n ← count_differ value index_var index_neighbor domain;
      Some (if decide (c1 ≠ c2) then 1 + n else n)
  end.

Fixpoint count_eliminated_loop (var : Var.t) (value : word)
    (ns : list Var.t) (eliminated : nat) : M nat :=
  match ns with
  | [] => ret eliminated
  | neighbor :: ns =>
      overlap <- overlaps_get var neighbor ;;
      match overlap with
      | Some (index_var, index_neighbor) =>
          d <- domains_get neighbor ;;
          n <- index_checked (count_differ value index_var index_neighbor d) ;;
          count_eliminated_loop var value ns (eliminated + n)
      | None => count_eliminated_loop var value ns eliminated
      end
  end.

(** The nested function of [order_domain_values]; [var] and [assignment]
    are the variables it closes over. *)
Definition count_eliminated_values (var : Var.t) (assignment : ref)
    (value : word) (variable : Var.t) : M nat :=
  a <- dict_read assignment ;;
  count_eliminated_loop var value (elements (neighbors variable ∖ dom a)) 0.

Definition order_domain_values (var : Var.t) (assignment : ref) :
    M (list word) :=
  domain <- domains_get var ;;
  sort_by_key Nat.leb
    (λ value, count_eliminated_values var assignment value var) domain.

(** *** [select_unassigned_variable] *)

Definition key_function (variable : Var.t) : M (nat * Z) :=
  d <- domains_get variable ;;
  ret (length d, (- Z.of_nat (size (neighbors variable)))%Z).

(** Comparison of the key tuples. *)
Definition tuple_le (k1 k2 : nat * Z) : bool :=
  (k1.1 <? k2.1) || ((k1.1 =? k2.1) && (k1.2 <=? k2.2)%Z).

Definition select_unassigned_variable (assignment : ref) : M Var.t :=
  keys <- domains_keys ;;
  a <- dict_read assignment ;;
  let unassigned_variables := filter (λ var, a !! var = None) keys in
  sorted <- sort_by_key tuple_le key_function unassigned_variables ;;
  match sorted with
  | var :: _ => ret var
  | [] => raise IndexError
  end.

(** *** [backtrack] *)

(** The [for value in ...] loop, with the recursive call as a parameter. *)
Fixpoint backtrack_values (recurse : ref → M (option ref))
    (assignment : ref) (var : Var.t) (values : list word) : M (option ref) :=
  match values with
  | [] => ret None
  | value :: values =>
      new_assignment <- dict_copy assignment ;;
      _ <- dict_setitem new_assignment var value ;;
      ok <- consistent new_assignment ;;
      if ok then
        result <- recurse new_assignment ;;
        match result with
        | Some r => ret (Some r)
        | None => backtrack_values recurse assignment var values
        end
      else backtrack_values recurse assignment var values
  end.

Fixpoint backtrack (fuel : nat) (assignment : ref) : M (option ref) :=
  match fuel with
  | 0 => out_of_fuel
  | S fuel =>
      complete <- assignment_complete assignment ;;
      if complete then ret (Some assignment)
      else
        var <- select_unassigned_variable assignment ;;
        values <- order_domain_values var assignment ;;
        backtrack_values (backtrack fuel) assignment var values
  end.

(** Enough fuel for the recursion: one call per slot and the last one. *)
Definition backtrack_fuel (s : State) : nat := S (size (domains s)).

(** *** [solve] *)

Definition solve : M (option ref) :=
  _ <- enforce_node_consistency ;;
  _ <- ac3 None ;;
  assignment <- dict_new ;;
  fuel <- gets backtrack_fuel ;;
  backtrack fuel assignment.

End Creator.

(** ** Rendering an assignment *)

(** Modelled from the spec: the grid of the Puzzle Description, members
    [height] and [width] of the class [Crossword] of [crossword.py] (not
    part of the sources at hand), which the engine itself never reads. *)
Record Grid : Type := mkGrid {
  height : nat;
  width : nat
}.

(** A cell of the letter grid holds [None] or a character. *)
Definition letter : Type := option Ascii.ascii.

(** [letters[i][j] = ch]: both subscripts are bounds checked, [None] is an
    [IndexError]. *)
Definition letters_set (letters : list (list letter)) (i j : nat)
    (ch : Ascii.ascii) : option (list (list letter)) :=
  row ← letters !! i;
  if decide (j < length row)
  then Some (<[i := <[j := Some ch]> row]> letters)
  else None.

(** The loop [for k in range(len(word))], over the offsets it has left. *)
Fixpoint letter_grid_word (variable : Var.t) (word : word) (ks : list nat)
    (letters : list (list letter)) : option (list (list letter)) :=
  match ks with
  | [] => Some letters
  | k :: ks =>
      let direction := Var.direction variable in
      let i := Var.i variable + (if decide (direction = Var.DOWN) then k else 0) in
      let j := Var.j variable + (if decide (direction = Var.ACROSS) then k else 0) in
      ch ← String.get k word;
      letters ← letters_set letters i j ch;
      letter_grid_word variable word ks letters
  end.

(** The loop [for variable, word in assignment.items()]. *)
Fixpoint letter_grid_items (items : list (Var.t * word))
    (letters : list (list letter)) : option (list (list letter)) :=
  match items with
  | [] => Some letters
  | (variable, word) :: items =>
      letters ← letter_grid_word variable word (seq 0 (String.length word)) letters;
      letter_grid_items items letters
  end.

(** [assignment.items()] is taken in the order of the dict's listing; what
    is proved about the grid holds for the bindings in any order. *)
Definition letter_grid (grid : Grid) (assignment : ref) :
    M (list (list letter)) :=
  a <- dict_read assignment ;;
  let letters := replicate (height grid) (replicate (width grid) None) in
  index_checked (letter_grid_items (map_to_list a) letters).

(** ** A sample puzzle *)

(** Two slots of length 3 on a 3x3 grid: one across from cell (0,0), one
    down from cell (0,1).  They share cell (0,1), which is offset 1 of the
    across slot and offset 0 of the down slot. *)
Definition slot_across : Var.t := Var.mk 0 0 Var.ACROSS 3.
Definition slot_down : Var.t := Var.mk 0 1 Var.DOWN 3.

Definition puzzle (vocabulary : list word) : Crossword :=
  mkCrossword vocabulary {[ slot_across; slot_down ]}
    {[ (slot_across, slot_down) := Some (1, 0);
       (slot_down, slot_across) := Some (0, 1) ]}.

(** A Domain Store for the sample puzzle, after node consistency over the
    vocabulary CAT, DOG, ARM. *)
Definition sample_state : State :=
  mkState {[ slot_across := ["CAT"; "DOG"; "ARM"];
             slot_down := ["CAT"; "DOG"; "ARM"] ]} [].

(** ** Specification vocabulary *)

(** The node-consistency filter on one domain. *)
Definition fits (v : Var.t) (d : list word) : list word :=
  filter (λ value, String.length value = Var.length v) d.

(** [w[i] == w'[j]], both characters being there. *)
Definition agree (i j : nat) (w w' : word) : Prop :=
  ∃ ch, String.get i w = Some ch ∧ String.get j w' = Some ch.

#[global] Instance agree_dec i j w w' : Decision (agree i j w w').
Proof.
  unfold agree.
  destruct (String.get i w) as [a|]; [|by right; intros (? & ? & _)].
  destruct (String.get j w') as [b|]; [|by right; intros (? & _ & ?)].
  destruct (decide (a = b)) as [->|Hne]; [left; eauto|].
  right. intros (ch & ? & ?). by simplify_eq.
Defined.

(** [w] has a supporting word in [d]: some word of [d] carries at offset [j]
    the character [w] carries at offset [i]. *)
Definition supported (i j : nat) (d : list word) (w : word) : Prop :=
  Exists (agree i j w) d.

#[global] Instance supported_dec i j d w : Decision (supported i j d w).
Proof. unfold supported. apply _. Defined.

(** Well-formedness of the Puzzle Description, as the spec describes the
    overlap relation: its entries are pairs of distinct slots of the puzzle,
    and a defined overlap [(i, j)] of [(x, y)] is mirrored by the overlap
    [(j, i)] of [(y, x)] ... *)
Definition overlap_keys_ok (c : Crossword) (a : arc)
    (o : option (nat * nat)) : Prop :=
  a.1 ∈ variables c ∧ a.2 ∈ variables c ∧ a.1 ≠ a.2 ∧
  match o with
  | Some (i, j) => overlaps c !! (a.2, a.1) = Some (Some (j, i))
  | None => True
  end.

#[global] Instance overlap_keys_ok_dec c a o : Decision (overlap_keys_ok c a o).
Proof. unfold overlap_keys_ok. destruct o as [[i j]|]; apply _. Defined.

Definition overlaps_mirrored (c : Crossword) : Prop :=
  map_Forall (overlap_keys_ok c) (overlaps c).

(** ... and the offsets fall inside the two slots. *)
Definition offsets_ok (a : arc) (o : option (nat * nat)) : Prop :=
  match o with
  | Some (i, j) => i < Var.length a.1 ∧ j < Var.length a.2
  | None => True
  end.

#[global] Instance offsets_ok_dec a o : Decision (offsets_ok a o).
Proof. unfold offsets_ok. destruct o as [[i j]|]; apply _. Defined.

Definition offsets_in_range (c : Crossword) : Prop :=
  map_Forall offsets_ok (overlaps c).

Definition wf_crossword (c : Crossword) : Prop :=
  overlaps_mirrored c ∧ offsets_in_range c.

#[global] Instance overlaps_mirrored_dec c : Decision (overlaps_mirrored c).
Proof. unfold overlaps_mirrored. apply _. Defined.

#[global] Instance offsets_in_range_dec c : Decision (offsets_in_range c).
Proof. unfold offsets_in_range. apply _. Defined.

#[global] Instance wf_crossword_dec c : Decision (wf_crossword c).
Proof. unfold wf_crossword. apply _. Defined.

(** The arc [(x, y)] is consistent in state [s]: if the overlap of [(x, y)]
    is defined, every word of [x]'s domain has a supporting word in [y]'s
    domain. *)
Definition arc_ok (c : Crossword) (s : State) (x y : Var.t) : Prop :=
  ∀ i j, overlaps c !! (x, y) = Some (Some (i, j)) →
    ∃ dx dy, domains s !! x = Some dx ∧ domains s !! y = Some dy ∧
             Forall (supported i j dy) dx.

(** The three ways an assignment can break the constraints: two distinct
    slots with the same word, a word whose length is not its slot's, two
    assigned slots with a defined overlap whose words disagree there. *)
Definition word_reused (a : assignment) : Prop :=
  ∃ v1 v2 w, v1 ≠ v2 ∧ a !! v1 = Some w ∧ a !! v2 = Some w.

Definition length_mismatch (a : assignment) : Prop :=
  ∃ v w, a !! v = Some w ∧ String.length w ≠ Var.length v.

Definition overlap_conflict (c : Crossword) (a : assignment) : Prop :=
  ∃ v1 v2 i j w1 w2,
    overlaps c !! (v1, v2) = Some (Some (i, j)) ∧
    a !! v1 = Some w1 ∧ a !! v2 = Some w2 ∧
    String.get i w1 ≠ String.get j w2.

Definition violates (c : Crossword) (a : assignment) : Prop :=
  word_reused a ∨ length_mismatch a ∨ overlap_conflict c a.

(** A computation that, when it returns, returns in the state it started
    from. *)
Definition readonly {A} (m : M A) : Prop :=
  ∀ s a s', m s = Return a s' → s' = s.

(** From [s] to [s'] the Domain Store is the same and the assignment dicts
    of [s] are all there, unchanged, possibly followed by new ones. *)
Definition extends (s s' : State) : Prop :=
  domains s' = domains s ∧ dicts s `prefix_of` dicts s'.

(** The Domain Store covers the slots of the puzzle, is node consistent and
    holds words of the vocabulary only. *)
Definition store_ok (c : Crossword) (s : State) : Prop :=
  dom (domains s) = variables c ∧
  (∀ v d w, domains s !! v = Some d → w ∈ d → String.length w = Var.length v) ∧
  (∀ v d w, domains s !! v = Some d → w ∈ d → w ∈ words c).

(** Every word [a] assigns is in the domain of its slot. *)
Definition within (s : State) (a : assignment) : Prop :=
  ∀ v w, a !! v = Some w → ∃ d, domains s !! v = Some d ∧ w ∈ d.

(** A solution of the puzzle: every slot is assigned a word of the
    vocabulary and no constraint is broken. *)
Definition solution (c : Crossword) (a : assignment) : Prop :=
  dom a = variables c ∧
  (∀ v w, a !! v = Some w → w ∈ words c) ∧
  ¬ violates c a.

(** [a'] extends [a] to all the slots of the Domain Store [D], with words
    of the domains for the slots [a] leaves open ... *)
Definition extension (D : gmap Var.t (list word)) (a a' : assignment) : Prop :=
  a ⊆ a' ∧
  dom a' = dom D ∧
  (∀ v w, a' !! v = Some w → a !! v = Some w ∨ ∃ d, D !! v = Some d ∧ w ∈ d).

(** ... and does so consistently. *)
Definition completes (c : Crossword) (D : gmap Var.t (list word))
    (a a' : assignment) : Prop :=
  extension D a a' ∧ ¬ violates c a'.

(** What a search from the assignment [a] over the Domain Store [D] may
    answer: a reference to a consistent complete extension of [a] in the
    final store of dicts, or [None] when [a] has no such extension. *)
Definition search_post (c : Crossword) (D : gmap Var.t (list word))
    (a : assignment) (s' : State) (res : option ref) : Prop :=
  match res with
  | Some r' =>
      ∃ a', dicts s' !! r' = Some a' ∧ extension D a a' ∧
            (a' = a ∨ ¬ violates c a')
  | None => ∀ a', ¬ completes c D a a'
  end.

(** The Domain Store only shrinks from [s] to [s']: same slots, every
    domain a subsequence of what it was; assignment dicts untouched. *)
Definition shrinks (s s' : State) : Prop :=
  dicts s' = dicts s ∧
  ∀ v, option_Forall2 sublist (domains s' !! v) (domains s !! v).

(** No [IndexError] can come from offset [i] in the words of [d]. *)
Definition indexable (i : nat) (d : list word) : Prop :=
  Forall (λ w, i < String.length w) d.

(** The count [order_domain_values] sorts [value] by: what
    [count_eliminated_values(value, var)] returns in state [s]. *)
Definition eliminated_count (c : Crossword) (var : Var.t) (r : ref) (s : State)
    (value : word) : nat :=
  match count_eliminated_values c var r value var s with
  | Return n _ => n
  | _ => 0
  end.

(** The key [select_unassigned_variable] sorts the slot [v] by in state
    [s]: the size of its domain, then minus its number of neighbors. *)
Definition selection_key (c : Crossword) (s : State) (v : Var.t) : nat * Z :=
  (length (default [] (domains s !! v)), (- Z.of_nat (size (neighbors c v)))%Z).

(** The cell of the grid that holds offset [k] of the slot [v]. *)
Definition cell_of (v : Var.t) (k : nat) : nat * nat :=
  match Var.direction v with
  | Var.ACROSS => (Var.i v, Var.j v + k)
  | Var.DOWN => (Var.i v + k, Var.j v)
  end.

(** The assignment [a] puts the character [ch] on the cell [(i, j)]. *)
Definition puts (a : assignment) (i j : nat) (ch : Ascii.ascii) : Prop :=
  ∃ v w k, a !! v = Some w ∧ String.get k w = Some ch ∧ cell_of v k = (i, j).

(** Every character of every word of [a] has its cell on the grid. *)
Definition on_grid (g : Grid) (a : assignment) : Prop :=
  ∀ v w k, a !! v = Some w → k < String.length w →
    (cell_of v k).1 < height g ∧ (cell_of v k).2 < width g.

(** The content of cell [(i, j)], if the grid has it. *)
Definition at_cell (letters : list (list letter)) (i j : nat) : option letter :=
  row ← letters !! i; row !! j.

(** A grid of [h] rows of [w] cells. *)
Definition grid_shape (h w : nat) (letters : list (list letter)) : Prop :=
  length letters = h ∧ Forall (λ row, length row = w) letters.

(** The cells of one binding of an assignment are on an [h] by [w] grid. *)
Definition item_on_grid (h w : nat) (p : Var.t * word) : Prop :=
  Forall (λ k, (cell_of p.1 k).1 < h ∧ (cell_of p.1 k).2 < w)
         (seq 0 (String.length p.2)).

(** ** Reasoning about computations *)

Lemma bind_Return {A B} (m : M A) (k : A → M B) s b s' :
  (x <- m ;; k x) s = Return b s' ↔
  ∃ a s1, m s = Return a s1 ∧ k a s1 = Return b s'.
Proof.
  unfold bind. split.
  - destruct (m s) as [a s1| |] eqn:E; [eauto|done..].
  - by intros (a & s1 & -> & ?).
Qed.

Lemma bind_eq {A B} (m : M A) (k : A → M B) s a s1 :
  m s = Return a s1 → (x <- m ;; k x) s = k a s1.
Proof. unfold bind. by intros ->. Qed.

Lemma index_checked_Return {A} (o : option A) s a s' :
  index_checked o s = Return a s' ↔ o = Some a ∧ s' = s.
Proof.
  destruct o; unfold index_checked, ret, raise; (split; [intros ?|intros [? ?]]);
    by simplify_eq.
Qed.

Lemma domains_get_Return v s d s' :
  domains_get v s = Return d s' ↔ domains s !! v = Some d ∧ s' = s.
Proof.
  unfold domains_get.
  destruct (domains s !! v); (split; [intros ?|intros [? ?]]); by simplify_eq.
Qed.

Lemma domains_get_eq v s d :
  domains s !! v = Some d → domains_get v s = Return d s.
Proof. by intros; apply domains_get_Return. Qed.

Lemma set_domains_id v d s :
  domains s !! v = Some d → set_domains <[v := d]> s = s.
Proof. destruct s as [m h]; unfold set_domains; simpl. intros. by rewrite insert_id. Qed.

(** Breaks a hypothesis [m s = Return a s'] along the binds of [m]. *)
Ltac inv_ret H :=
  repeat match type of H with
  | bind _ _ _ = Return _ _ =>
      let a := fresh "a" in let s := fresh "s" in
      let H1 := fresh "H" in
      apply bind_Return in H as (a & s & H1 & H); inv_ret H1
  | ret _ _ = Return _ _ => unfold ret in H; simplify_eq H; intros; subst
  | raise _ _ = Return _ _ => by unfold raise in H
  | out_of_fuel _ = Return _ _ => by unfold out_of_fuel in H
  | index_checked _ _ = Return _ _ => apply index_checked_Return in H as [H ->]
  | domains_get _ _ = Return _ _ => apply domains_get_Return in H as [H ->]
  | gets _ _ = Return _ _ => unfold gets in H; simplify_eq H; intros; subst
  | domains_keys _ = Return _ _ => unfold domains_keys in H; simplify_eq H; intros; subst
  | dict_read _ _ = Return _ _ => unfold dict_read in H; simplify_eq H; intros; subst
  | domains_set _ _ _ = Return _ _ => unfold domains_set in H; simplify_eq H; intros; subst
  end.

(** ** Node consistency *)

Lemma enforce_node_consistency_loop_spec vars : ∀ s,
  NoDup vars →
  (∀ v, v ∈ vars → is_Some (domains s !! v)) →
  ∃ s', enforce_node_consistency_loop vars s = Return () s' ∧
    dicts s' = dicts s ∧
    ∀ v, domains s' !! v =
         if decide (v ∈ vars) then fits v <$> domains s !! v
         else domains s !! v.
Proof.
  induction vars as [|var vars IH]; intros s Hnd Hin; simpl.
  - exists s. split_and!; [done..|]. intros v. by destruct (decide (v ∈ [])).
  - apply NoDup_cons in Hnd as [Hvar Hnd].
    destruct (Hin var) as [d Hd]; [set_solver|].
    rewrite (bind_eq _ _ _ _ _ (domains_get_eq _ _ _ Hd)).
    unfold domains_set at 1, bind at 1.
    destruct (IH (set_domains <[var := fits var d]> s) Hnd) as (s' & Hs' & Hh & Hl).
    { intros v Hv. simpl. rewrite lookup_insert_ne; [|set_solver]. apply Hin. set_solver. }
    exists s'. split_and!; [done..|]. intros v. rewrite Hl. simpl.
    destruct (decide (v = var)) as [->|Hne].
    + rewrite decide_False by done. rewrite decide_True by set_solver.
      by rewrite lookup_insert_eq, Hd.
    + rewrite lookup_insert_ne by done.
      destruct (decide (v ∈ vars)) as [Hv|Hv].
      * rewrite decide_True; [done|by right].
      * rewrite decide_False; [done|]. by intros [?|?]%elem_of_cons.
Qed.

Lemma enforce_node_consistency_spec s :
  ∃ s', enforce_node_consistency s = Return () s' ∧
    dicts s' = dicts s ∧
    ∀ v, domains s' !! v = fits v <$> domains s !! v.
Proof.
  unfold enforce_node_consistency, domains_keys, bind at 1.
  destruct (enforce_node_consistency_loop_spec (map_to_list (domains s)).*1 s)
    as (s' & Hs' & Hh & Hl).
  { apply NoDup_fst_map_to_list. }
  { intros v [[v' d] [-> Hv]]%list_elem_of_fmap. apply elem_of_map_to_list in Hv. eauto. }
  exists s'. split_and!; [done..|]. intros v. rewrite Hl. case_decide as Hv; [done|].
  destruct (domains s !! v) as [d|] eqn:Hd; [|done]. destruct Hv.
  apply list_elem_of_fmap. exists (v, d). split; [done|]. by apply elem_of_map_to_list.
Qed.

Lemma fits_idemp v d : fits v (fits v d) = fits v d.
Proof.
  unfold fits. induction d as [|w d IH]; [done|].
  rewrite filter_cons.
  destruct (decide (String.length w = Var.length v)) as [Hw|Hw]; [|done].
  rewrite filter_cons, decide_True by done. f_equal. exact IH.
Qed.

Lemma State_eq s1 s2 :
  (∀ v, domains s1 !! v = domains s2 !! v) → dicts s1 = dicts s2 → s1 = s2.
Proof. destruct s1, s2; simpl. intros ?%map_eq ?. by subst. Qed.

(** C6 -- Node-consistency soundness.  [enforce_node_consistency] always
    returns; it leaves the set of slots and the assignment dicts alone, and
    the domain of every slot [v] becomes the old one restricted to the words
    of length [v.length]: every word that remains has that length, every
    word that was removed had a different length, and no word is added. *)
Theorem enforce_node_consistency_sound (s : State) :
  ∃ s', enforce_node_consistency s = Return () s' ∧
    dicts s' = dicts s ∧
    dom (domains s') = dom (domains s) ∧
    ∀ v d, domains s !! v = Some d →
      ∃ d', domains s' !! v = Some d' ∧
        d' = filter (λ w, String.length w = Var.length v) d ∧
        (∀ w, w ∈ d' → String.length w = Var.length v) ∧
        (∀ w, w ∈ d → w ∉ d' → String.length w ≠ Var.length v) ∧
        (∀ w, w ∈ d' → w ∈ d).
Proof.
  destruct (enforce_node_consistency_spec s) as (s' & Hs' & Hh & Hl).
  exists s'. split_and!; [done..| |].
  - apply set_eq. intros v. rewrite !elem_of_dom, Hl.
    by rewrite fmap_is_Some.
  - intros v d Hd. exists (fits v d). rewrite Hl, Hd. unfold fits.
    split_and!; [done..| | |].
    + by intros w [? _]%list_elem_of_filter.
    + intros w Hw Hnw Hlen. apply Hnw. by apply list_elem_of_filter.
    + by intros w [_ ?]%list_elem_of_filter.
Qed.

Lemma enforce_node_consistency_sound_witness :
  ∃ s', enforce_node_consistency (init (puzzle ["CAT"; "DOG"; "OX"]))
          = Return () s' ∧
        domains s' !! slot_across = Some ["CAT"; "DOG"].
Proof.
  destruct (enforce_node_consistency_sound (init (puzzle ["CAT"; "DOG"; "OX"])))
    as (s' & Hs' & _ & _ & Hl).
  exists s'. split; [done|].
  destruct (Hl slot_across ["CAT"; "DOG"; "OX"]) as (d' & Hd' & -> & _);
    [reflexivity|].
  exact Hd'.
Defined.

(** C7 -- Node-consistency idempotence.  Running
    [enforce_node_consistency] twice is the same computation as running it
    once: same outcome, same final state, for every initial state. *)
Theorem enforce_node_consistency_idempotent (s : State) :
  (_ <- enforce_node_consistency ;; enforce_node_consistency) s =
  enforce_node_consistency s.
Proof.
  destruct (enforce_node_consistency_spec s) as (s1 & Hs1 & Hh1 & Hl1).
  destruct (enforce_node_consistency_spec s1) as (s2 & Hs2 & Hh2 & Hl2).
  rewrite (bind_eq _ _ _ _ _ Hs1), Hs2, Hs1. f_equal.
  apply State_eq; [|congruence].
  intros v. rewrite Hl2, Hl1. destruct (domains s !! v) as [d|]; [|done].
  simpl. by rewrite fits_idemp.
Qed.

(** ** The revision step *)

Lemma get_is_Some (w : word) : ∀ i, i < String.length w ↔ is_Some (String.get i w).
Proof.
  induction w as [|ch w IH]; intros i; simpl.
  - split; [lia|]. by intros [? ?].
  - destruct i as [|i]; simpl; [split; [eauto|lia]|].
    rewrite <-IH. lia.
Qed.

Lemma any_agree_true w i j d : any_agree w i j d = Some true → supported i j d w.
Proof.
  induction d as [|w' d IH]; simpl; [done|].
  destruct (String.get i w) as [a|] eqn:Ha; simpl; [|done].
  destruct (String.get j w') as [b|] eqn:Hb; simpl; [|done].
  destruct (decide (a = b)) as [->|Hne]; intros H.
  - apply Exists_cons_hd. by exists b.
  - apply Exists_cons_tl. by apply IH.
Qed.

Lemma any_agree_false w i j d : any_agree w i j d = Some false → ¬ supported i j d w.
Proof.
  induction d as [|w' d IH]; simpl; [by intros _ ?%Exists_nil|].
  destruct (String.get i w) as [a|] eqn:Ha; simpl; [|done].
  destruct (String.get j w') as [b|] eqn:Hb; simpl; [|done].
  destruct (decide (a = b)) as [->|Hne]; [done|].
  intros H [(ch & ? & ?)|?]%Exists_cons; [by simplify_eq|by apply IH].
Qed.

Lemma any_agree_is_Some w i j d :
  (d = [] ∨ i < String.length w) → indexable j d → is_Some (any_agree w i j d).
Proof.
  intros [->|Hi]; [by eexists|].
  induction 1 as [|w' d Hw' _ IH]; simpl; [by eexists|].
  apply get_is_Some in Hi as [a ->]. apply get_is_Some in Hw' as [b ->]. simpl.
  by destruct (decide (a = b)).
Qed.

Lemma list_remove_middle w pre post :
  w ∉ pre → list_remove w (pre ++ w :: post) = Some (pre ++ post).
Proof.
  induction pre as [|w' pre IH]; simpl; intros Hw.
  - by rewrite decide_True.
  - rewrite decide_False by set_solver. rewrite IH by set_solver. done.
Qed.

Lemma list_remove_Some w d d' :
  list_remove w d = Some d' → length d = S (length d') ∧ d' `sublist_of` d.
Proof.
  revert d'. induction d as [|w' d IH]; simpl; intros d'; [done|].
  destruct (decide (w = w')) as [->|Hne].
  - intros [= ->]. split; [done|]. by apply sublist_cons.
  - destruct (list_remove w d) as [d''|]; simpl; [|done]. intros [= <-].
    destruct (IH _ eq_refl) as [-> ?]. split; [done|]. by apply sublist_skip.
Qed.

Lemma domains_remove_eq x w d d' s :
  domains s !! x = Some d → list_remove w d = Some d' →
  domains_remove x w s = Return () (set_domains <[x := d']> s).
Proof.
  intros Hx Hr. unfold domains_remove.
  by rewrite (bind_eq _ _ _ _ _ (domains_get_eq _ _ _ Hx)), Hr.
Qed.

Lemma filter_Forall_id {A} (P : A → Prop) `{!∀ x, Decision (P x)} (l : list A) :
  Forall P l → filter P l = l.
Proof.
  induction 1 as [|x l Hx _ IH]; [done|].
  rewrite filter_cons, decide_True by done. by f_equal.
Qed.

Lemma filter_ne_iff {A} (P : A → Prop) `{!∀ x, Decision (P x)} (l : list A) :
  filter P l ≠ l ↔ ∃ x, x ∈ l ∧ ¬ P x.
Proof.
  split.
  - intros Hne. destruct (decide (Forall P l)) as [Hall|Hall].
    + by apply (filter_Forall_id P) in Hall.
    + apply not_Forall_Exists in Hall; [|apply _].
      apply Exists_exists in Hall as (x & ? & ?). eauto.
  - intros (x & Hx & HP) Heq.
    pose proof (length_filter_lt P l x Hx HP) as Hlt. rewrite Heq in Hlt. lia.
Qed.

Lemma revise_loop_eq x y i j dy copy : ∀ pre revised s,
  x ≠ y →
  domains s !! y = Some dy →
  domains s !! x = Some (pre ++ copy) →
  Forall (supported i j dy) pre →
  revise_loop x y i j copy revised s =
    if forallb (λ w, bool_decide (is_Some (any_agree w i j dy))) copy
    then Return (revised || bool_decide (filter (supported i j dy) copy ≠ copy))
                (set_domains <[x := pre ++ filter (supported i j dy) copy]> s)
    else Raise IndexError.
Proof.
  induction copy as [|val_x copy IH]; intros pre revised s Hxy Hy Hx Hpre; simpl.
  - rewrite orb_false_r. unfold ret. by rewrite filter_nil, set_domains_id.
  - rewrite (bind_eq _ _ _ _ _ (domains_get_eq _ _ _ Hy)).
    destruct (any_agree val_x i j dy) as [[]|] eqn:Hany; simpl.
    + unfold bind at 1, ret at 1; simpl.
      apply any_agree_true in Hany.
      rewrite (IH (pre ++ [val_x])); [|done|done|by rewrite <-app_assoc|].
      2:{ apply Forall_app. by split; [|apply Forall_singleton]. }
      rewrite filter_cons, decide_True by done.
      rewrite <-!app_assoc. simpl.
      destruct (forallb _ copy); [|done]. do 2 f_equal.
      apply bool_decide_ext.
      split; intros Hn Heq; apply Hn; [by simplify_eq|by f_equal].
    + unfold bind at 1, ret at 1; simpl.
      apply any_agree_false in Hany.
      rewrite (bind_eq _ _ _ _ _ (domains_remove_eq _ _ _ _ _ Hx
                 (list_remove_middle _ _ _ (λ Hin, Hany (proj1 (Forall_forall _ _) Hpre _ Hin))))).
      rewrite (IH pre); simpl; [|done|by rewrite lookup_insert_ne|by rewrite lookup_insert_eq|done].
      rewrite filter_cons, decide_False by done.
      destruct (forallb _ copy); [|done].
      rewrite bool_decide_true, orb_true_r.
      * unfold set_domains; simpl. by rewrite insert_insert_eq.
      * intros Heq.
        pose proof (length_filter (supported i j dy) copy) as Hlen.
        rewrite Heq in Hlen. simpl in Hlen. lia.
    + done.
Qed.

Lemma revise_eq c x y i j dx dy s :
  x ≠ y →
  overlaps c !! (x, y) = Some (Some (i, j)) →
  domains s !! x = Some dx →
  domains s !! y = Some dy →
  revise c x y s =
    if forallb (λ w, bool_decide (is_Some (any_agree w i j dy))) dx
    then Return (bool_decide (filter (supported i j dy) dx ≠ dx))
                (set_domains <[x := filter (supported i j dy) dx]> s)
    else Raise IndexError.
Proof.
  intros Hxy Ho Hx Hy. unfold revise, overlaps_get. rewrite Ho.
  unfold bind at 1, ret at 1.
  rewrite (bind_eq _ _ _ _ _ (domains_get_eq _ _ _ Hx)).
  rewrite (bind_eq _ _ _ _ _ (domains_get_eq _ _ _ Hy)).
  by rewrite (revise_loop_eq x y i j dy dx [] false s).
Qed.

Lemma revise_no_overlap c x y s :
  overlaps c !! (x, y) = Some None → revise c x y s = Return false s.
Proof. intros Ho. unfold revise, overlaps_get. by rewrite Ho. Qed.

Lemma forallb_any_agree i j dx dy :
  indexable i dx → indexable j dy →
  forallb (λ w, bool_decide (is_Some (any_agree w i j dy))) dx = true.
Proof.
  intros Hx Hy. apply forallb_forall. intros w Hw%list_elem_of_In.
  apply bool_decide_eq_true. apply any_agree_is_Some; [|done].
  right. by eapply Forall_forall in Hx.
Qed.

(** C4 -- Revision Step contract.  For an entry [(x, y)] of the overlap
    relation with [x] and [y] distinct slots of the Domain Store.  When the
    overlap is [(i, j)]: [revise(x, y)] returns as soon as the words of the
    two domains reach the offsets; and whenever it returns, [x]'s domain
    keeps, in order, exactly the words [w] for which some [w'] of [y]'s
    domain has [w[i] == w'[j]], every other domain ([y]'s included) and the
    assignment dicts are unchanged, and the result is [True] iff some word
    was removed.  When the entry is [None], nothing changes and the result
    is [False]. *)
Theorem revise_contract (c : Crossword) (x y : Var.t) (s : State)
    (ov : option (nat * nat)) (dx dy : list word) :
  x ≠ y →
  overlaps c !! (x, y) = Some ov →
  domains s !! x = Some dx →
  domains s !! y = Some dy →
  match ov with
  | Some (i, j) =>
      (indexable i dx → indexable j dy →
       ∃ b s', revise c x y s = Return b s') ∧
      (∀ b s', revise c x y s = Return b s' →
         ∃ dx', domains s' !! x = Some dx' ∧
           dx' = filter (supported i j dy) dx ∧
           (∀ w, w ∈ dx' ↔ w ∈ dx ∧ ∃ w', w' ∈ dy ∧ agree i j w w') ∧
           (∀ v, v ≠ x → domains s' !! v = domains s !! v) ∧
           dicts s' = dicts s ∧
           (b = true ↔ ∃ w, w ∈ dx ∧ w ∉ dx'))
  | None => revise c x y s = Return false s
  end.
Proof.
  intros Hxy Ho Hx Hy. destruct ov as [[i j]|]; [|by apply revise_no_overlap].
  rewrite (revise_eq c x y i j dx dy s) by done. split.
  - intros Hix Hjy. rewrite forallb_any_agree by done. eauto.
  - intros b s' Hret. destruct (forallb _ dx); [|done].
    injection Hret as <- <-. eexists. simpl. split_and!.
    + by rewrite lookup_insert_eq.
    + done.
    + intros w. rewrite list_elem_of_filter. unfold supported.
      rewrite Exists_exists. tauto.
    + intros v Hv. by rewrite lookup_insert_ne.
    + done.
    + rewrite bool_decide_eq_true, filter_ne_iff.
      split; intros (w & Hw & Hn); exists w; (split; [done|]).
      * rewrite list_elem_of_filter. tauto.
      * intros Hs. apply Hn. by apply list_elem_of_filter.
Qed.

Lemma revise_contract_witness :
  ∃ b s',
    revise (puzzle []) slot_across slot_down
      (mkState {[ slot_across := ["CAT"; "DOG"]; slot_down := ["ARM"] ]} [])
    = Return b s' ∧
    domains s' !! slot_across = Some ["CAT"] ∧ b = true.
Proof.
  pose proof (revise_contract (puzzle []) slot_across slot_down
    (mkState {[ slot_across := ["CAT"; "DOG"]; slot_down := ["ARM"] ]} [])
    (Some (1, 0)) ["CAT"; "DOG"] ["ARM"]) as H.
  simpl in H.
  destruct H as [Hreturns Hcontract];
    [done| reflexivity | reflexivity | reflexivity |].
  destruct Hreturns as (b & s' & Hr); [repeat constructor..|].
  destruct (Hcontract b s' Hr) as (dx' & Hdx & -> & _ & _ & _ & Hb).
  exists b, s'. split; [done|]. split; [done|].
  apply Hb. exists "DOG". split; [repeat constructor|].
  vm_compute. by intros [?|?%elem_of_nil]%elem_of_cons.
Defined.

Lemma supported_nil i j w : ¬ supported i j [] w.
Proof. by intros ?%Exists_nil. Qed.

Lemma filter_supported_nil i j dx : filter (supported i j []) dx = [].
Proof.
  induction dx as [|w dx IH]; [done|].
  by rewrite filter_cons, decide_False by apply supported_nil.
Qed.

(** C5, as the code has it -- Revision Step safety.  A fresh creator whose
    vocabulary is the single word "A" gives both slots of the sample puzzle
    a one-word domain, and [revise] then raises [IndexError] on ["A"[1]]:
    safety with one-element domains does depend on the word lengths. *)
Lemma revise_short_word_raises :
  domains (init (puzzle ["A"])) !! slot_across = Some ["A"] ∧
  domains (init (puzzle ["A"])) !! slot_down = Some ["A"] ∧
  overlaps (puzzle ["A"]) !! (slot_across, slot_down) = Some (Some (1, 0)) ∧
  revise (puzzle ["A"]) slot_across slot_down (init (puzzle ["A"]))
    = Raise IndexError.
Proof. by vm_compute. Qed.

(** C5, amended -- Revision Step safety.  For an entry [(x, y)] of the
    overlap relation with [x] and [y] distinct slots of the Domain Store,
    [revise(x, y)] returns without error whenever [x]'s domain is empty, or
    [y]'s domain is empty, or the entry is [None], or (for domains of any
    size, one included) the words of [x]'s domain reach offset [i] and those
    of [y]'s domain reach offset [j].  When [y]'s domain is empty and the
    overlap is defined, it removes every word from [x]'s domain and returns
    [True] iff [x]'s domain was nonempty. *)
Theorem revise_safe (c : Crossword) (x y : Var.t) (s : State)
    (ov : option (nat * nat)) (dx dy : list word) :
  x ≠ y →
  overlaps c !! (x, y) = Some ov →
  domains s !! x = Some dx →
  domains s !! y = Some dy →
  (dx = [] ∨ dy = [] ∨
   match ov with
   | Some (i, j) => indexable i dx ∧ indexable j dy
   | None => True
   end) →
  (∃ b s', revise c x y s = Return b s') ∧
  (is_Some ov → dy = [] →
   revise c x y s =
     Return (bool_decide (dx ≠ [])) (set_domains <[x := []]> s)).
Proof.
  intros Hxy Ho Hx Hy Hsafe.
  destruct ov as [[i j]|]; [|split; [|by intros [? ?]]].
  2:{ rewrite (revise_no_overlap c x y s Ho). eauto. }
  rewrite (revise_eq c x y i j dx dy s) by done.
  assert (forallb (λ w, bool_decide (is_Some (any_agree w i j dy))) dx = true)
    as ->.
  { destruct Hsafe as [->|[->|[? ?]]]; [done| |by apply forallb_any_agree].
    apply forallb_forall. intros w _. by apply bool_decide_eq_true. }
  split; [eauto|]. intros _ ->. rewrite filter_supported_nil. f_equal.
  apply bool_decide_ext. split; intros Hn Heq; apply Hn; by subst.
Qed.

Lemma revise_safe_witness :
  revise (puzzle []) slot_across slot_down
    (mkState {[ slot_across := ["A"; "TOAST"]; slot_down := [] ]} [])
  = Return true (mkState {[ slot_across := []; slot_down := [] ]} []).
Proof.
  pose proof (revise_safe (puzzle []) slot_across slot_down
    (mkState {[ slot_across := ["A"; "TOAST"]; slot_down := [] ]} [])
    (Some (1, 0)) ["A"; "TOAST"] []) as H.
  destruct H as [_ H]; [done|reflexivity|reflexivity|reflexivity|by right; left|].
  rewrite H; [|by eexists|done]. by vm_compute.
Defined.

(** ** The Domain Store only shrinks *)

Lemma shrinks_refl s : shrinks s s.
Proof. split; [done|]. intros v. by destruct (domains s !! v); constructor. Qed.

Lemma shrinks_trans s1 s2 s3 : shrinks s1 s2 → shrinks s2 s3 → shrinks s1 s3.
Proof.
  intros [Hh1 H1] [Hh2 H2]. split; [congruence|]. intros v.
  specialize (H1 v). specialize (H2 v).
  destruct H2 as [d3 d2 H32|]; inversion H1; subst; constructor.
  by etrans.
Qed.

Lemma shrinks_lookup s s' v d' :
  shrinks s s' → domains s' !! v = Some d' →
  ∃ d, domains s !! v = Some d ∧ d' `sublist_of` d.
Proof. intros [_ H] Hv. specialize (H v). rewrite Hv in H. inversion H; eauto. Qed.

Lemma shrinks_dom s s' : shrinks s s' → dom (domains s') = dom (domains s).
Proof.
  intros [_ H]. apply set_eq. intros v. rewrite !elem_of_dom. specialize (H v).
  inversion H; split; intros [? ?]; by eauto.
Qed.

Lemma shrinks_insert s x d d' :
  domains s !! x = Some d → d' `sublist_of` d →
  shrinks s (set_domains <[x := d']> s).
Proof.
  intros Hx Hsub. split; [done|]. intros v. simpl.
  destruct (decide (x = v)) as [<-|Hne].
  - rewrite lookup_insert_eq, Hx. by constructor.
  - rewrite lookup_insert_ne by done. by destruct (domains s !! v); constructor.
Qed.

Lemma total_words_insert s x d d' :
  domains s !! x = Some d →
  total_words (set_domains <[x := d']> s) + length d = total_words s + length d'.
Proof.
  intros Hx. unfold total_words. simpl.
  rewrite (map_fold_delete_L _ _ x d (domains s)); [|intros; lia|done].
  rewrite <-(insert_delete_eq (domains s)).
  rewrite map_fold_insert_L; [lia|intros; lia|by rewrite lookup_delete_eq].
Qed.

Lemma domains_remove_Return x w s u s' :
  domains_remove x w s = Return u s' →
  ∃ d d', domains s !! x = Some d ∧ list_remove w d = Some d' ∧
          s' = set_domains <[x := d']> s.
Proof.
  unfold domains_remove. intros H.
  apply bind_Return in H as (d & s1 & [Hd ->]%domains_get_Return & H).
  destruct (list_remove w d) as [d'|] eqn:Hrem; [|done].
  unfold domains_set in H. exists d, d'. by simplify_eq.
Qed.

Lemma revise_loop_shrinks x y i j copy : ∀ revised s b s',
  revise_loop x y i j copy revised s = Return b s' →
  shrinks s s' ∧
  (∀ v, v ≠ x → domains s' !! v = domains s !! v) ∧
  ((b = revised ∧ s' = s) ∨ (b = true ∧ total_words s' < total_words s)).
Proof.
  induction copy as [|val_x copy IH]; intros revised s b s' H; simpl in H.
  - inv_ret H. eauto using shrinks_refl.
  - apply bind_Return in H as (dy & s1 & [Hy ->]%domains_get_Return & H).
    apply bind_Return in H as (has & s1 & [Hany ->]%index_checked_Return & H).
    destruct has; simpl in H.
    + by apply IH in H.
    + apply bind_Return in H as (u & s1 & Hrem & H).
      apply domains_remove_Return in Hrem as (d & d' & Hx & Hrem & ->).
      apply list_remove_Some in Hrem as [Hlen Hsub].
      apply IH in H as (Hshr & Hother & Hres).
      pose proof (total_words_insert s x d d' Hx) as Htot.
      split_and!.
      * eapply shrinks_trans; [|done]. by eapply shrinks_insert.
      * intros v Hv. rewrite Hother by done. simpl. by rewrite lookup_insert_ne.
      * right. destruct Hres as [[-> ->]|[-> ?]]; (split; [done|lia]).
Qed.

Lemma revise_shrinks c x y s b s' :
  revise c x y s = Return b s' →
  shrinks s s' ∧
  (∀ v, v ≠ x → domains s' !! v = domains s !! v) ∧
  ((b = false ∧ s' = s) ∨ (b = true ∧ total_words s' < total_words s)).
Proof.
  unfold revise, overlaps_get. intros H.
  destruct (overlaps c !! (x, y)) as [[[i j]|]|]; [| |done].
  - unfold bind at 1, ret at 1 in H.
    apply bind_Return in H as (dx & s1 & [Hx ->]%domains_get_Return & H).
    apply bind_Return in H as (dy & s1 & [Hy ->]%domains_get_Return & H).
    by apply revise_loop_shrinks in H.
  - unfold bind, ret in H. simplify_eq. eauto using shrinks_refl.
Qed.

(** A changed domain was not empty. *)
Lemma revise_true_nonempty c x y s s' :
  revise c x y s = Return true s' → ∃ dx, domains s !! x = Some dx ∧ dx ≠ [].
Proof.
  intros H. destruct (revise_shrinks _ _ _ _ _ _ H) as (Hshr & Hother & [[? _]|[_ Hlt]]);
    [done|].
  unfold revise, overlaps_get in H.
  destruct (overlaps c !! (x, y)) as [[[i j]|]|]; [| |done].
  - unfold bind at 1, ret at 1 in H.
    apply bind_Return in H as (dx & s1 & [Hx ->]%domains_get_Return & H).
    apply bind_Return in H as (dy & s1 & [Hy ->]%domains_get_Return & H).
    exists dx. split; [done|]. intros ->. simpl in H. unfold ret in H.
    simplify_eq.
  - unfold bind, ret in H. simplify_eq.
Qed.

(** ** AC-3: termination *)

Lemma list_pop_snoc queue a : list_pop (queue ++ [a]) = Some (a, queue).
Proof. unfold list_pop. by rewrite last_snoc, removelast_last. Qed.

Lemma list_pop_Some queue a queue' :
  list_pop queue = Some (a, queue') → queue = queue' ++ [a].
Proof.
  destruct queue as [|b queue _] using rev_ind; [done|].
  rewrite list_pop_snoc. by intros [= -> ->].
Qed.

Lemma list_pop_None queue : list_pop queue = None → queue = [].
Proof.
  destruct queue as [|b queue _] using rev_ind; [done|].
  by rewrite list_pop_snoc.
Qed.

Lemma neighbors_size c x y :
  length (elements (neighbors c x ∖ {[ y ]})) ≤ size (variables c).
Proof.
  change (size (neighbors c x ∖ {[ y ]}) ≤ size (variables c)).
  apply subseteq_size. unfold neighbors. set_solver.
Qed.

Lemma ac3_body_progress c queue x y s r queue' s' :
  ac3_body c queue x y s = Return (r, queue') s' →
  shrinks s s' ∧
  ((total_words s' < total_words s ∧
    length queue' ≤ length queue + size (variables c)) ∨
   (s' = s ∧ queue' = queue ∧ r = None)).
Proof.
  unfold ac3_body. intros H.
  apply bind_Return in H as (revised & s1 & Hrev & H).
  destruct (revise_shrinks _ _ _ _ _ _ Hrev) as (Hshr & _ & [[-> ->]|[-> Hlt]]).
  - unfold ret in H. simplify_eq. eauto.
  - apply bind_Return in H as (dx & s2 & [Hx ->]%domains_get_Return & H).
    case_bool_decide; unfold ret in H; simplify_eq;
      (split; [done|]; left; split; [done|]); [lia|].
    rewrite length_app, length_fmap. pose proof (neighbors_size c x y). lia.
Qed.

Lemma revise_loop_fuel x y i j copy : ∀ revised s,
  revise_loop x y i j copy revised s ≠ OutOfFuel.
Proof.
  induction copy as [|val_x copy IH]; intros revised s; simpl; [done|].
  unfold bind, domains_get, domains_remove, bind, domains_get, domains_set.
  destruct (domains s !! y) as [dy|]; [|done].
  destruct (any_agree val_x i j dy) as [[]|]; simpl; [apply IH| |done].
  destruct (domains s !! x) as [dx|]; [|done].
  destruct (list_remove val_x dx); [apply IH|done].
Qed.

Lemma revise_fuel c x y s : revise c x y s ≠ OutOfFuel.
Proof.
  unfold revise, overlaps_get.
  destruct (overlaps c !! (x, y)) as [[[i j]|]|]; [|done..].
  unfold bind, ret, domains_get.
  destruct (domains s !! x) as [dx|]; [|done].
  destruct (domains s !! y) as [dy|]; [|done].
  apply revise_loop_fuel.
Qed.

Lemma ac3_body_fuel c queue x y s : ac3_body c queue x y s ≠ OutOfFuel.
Proof.
  unfold ac3_body, bind. pose proof (revise_fuel c x y s).
  destruct (revise c x y s) as [[] s1| |]; [|done..].
  unfold domains_get. destruct (domains s1 !! x); [|done].
  by case_bool_decide.
Qed.

Lemma ac3_loop_fuel c fuel : ∀ queue s,
  length queue + size (variables c) * total_words s < fuel →
  ac3_loop c fuel queue s ≠ OutOfFuel.
Proof.
  induction fuel as [|fuel IH]; intros queue s Hlt; [lia|]. simpl.
  destruct (list_pop queue) as [[[x y] q]|] eqn:Hpop; [|done].
  apply list_pop_Some in Hpop as ->. rewrite length_app in Hlt. simpl in Hlt.
  unfold bind. pose proof (ac3_body_fuel c q x y s).
  destruct (ac3_body c q x y s) as [[[b|] q'] s'| |] eqn:Hbody; [done| |done..].
  apply IH.
  apply ac3_body_progress in Hbody as (_ & [[? ?]|(-> & -> & _)]); [nia|lia].
Qed.

(** More fuel than needed changes nothing. *)
Lemma ac3_loop_more_fuel c fuel : ∀ fuel' queue s,
  fuel ≤ fuel' →
  ac3_loop c fuel queue s ≠ OutOfFuel →
  ac3_loop c fuel' queue s = ac3_loop c fuel queue s.
Proof.
  induction fuel as [|fuel IH]; intros fuel' queue s Hle Hdone; [done|].
  destruct fuel' as [|fuel']; [lia|]. simpl in *.
  destruct (list_pop queue) as [[[x y] q]|]; [|done].
  unfold bind in *.
  destruct (ac3_body c q x y s) as [[[b|] q'] s'| |]; [done| |done..].
  apply IH; [lia|done].
Qed.

(** C8 -- AC-3 termination.  From any queue and any state, the [while] loop
    of [ac3] is over within [ac3_fuel] rounds (queue length plus number of
    slots times number of words, plus one), and more fuel changes nothing;
    so [ac3] never runs out of fuel.  Each round leaves the number of words
    no larger, and either lowers it or pops its pair, enqueues nothing and
    goes on in the same state. *)
Theorem ac3_terminates (c : Crossword) :
  (∀ queue s fuel,
     ac3_fuel c queue s ≤ fuel →
     ac3_loop c fuel queue s ≠ OutOfFuel ∧
     ac3_loop c fuel queue s = ac3_loop c (ac3_fuel c queue s) queue s) ∧
  (∀ arcs s, ac3 c arcs s ≠ OutOfFuel) ∧
  (∀ queue x y s r queue' s',
     ac3_body c queue x y s = Return (r, queue') s' →
     total_words s' ≤ total_words s ∧
     (total_words s' < total_words s ∨ (s' = s ∧ queue' = queue ∧ r = None))).
Proof.
  assert (∀ queue s, ac3_loop c (ac3_fuel c queue s) queue s ≠ OutOfFuel) as Hfuel.
  { intros queue s. apply ac3_loop_fuel. unfold ac3_fuel. lia. }
  split_and!.
  - intros queue s fuel Hle.
    rewrite (ac3_loop_more_fuel c (ac3_fuel c queue s) fuel) by done. done.
  - intros arcs s. unfold ac3, bind, gets.
    match goal with |- context [ac3_loop c ?f ?q s] =>
      pose proof (Hfuel q s) as H; fold f in H;
      destruct (ac3_loop c f q s) end; done.
  - intros queue x y s r queue' s' H.
    apply ac3_body_progress in H as (_ & [[? ?]|(-> & -> & ->)]); [lia|].
    split; [done|]. by right.
Qed.

Lemma ac3_terminates_witness :
  ac3_loop (puzzle []) 20 [(slot_down, slot_across); (slot_across, slot_down)]
    sample_state ≠ OutOfFuel ∧
  total_words (mkState {[ slot_across := ["CAT"]; slot_down := ["CAT"; "DOG"; "ARM"] ]} [])
    ≤ total_words sample_state.
Proof.
  destruct (ac3_terminates (puzzle [])) as (Hloop & _ & Hbody). split.
  - apply Hloop. vm_compute. lia.
  - refine (proj1 (Hbody [(slot_down, slot_across)] slot_across slot_down
                     sample_state None [(slot_down, slot_across)] _ _)).
    by vm_compute.
Defined.

(** ** AC-3: the failure short-circuit *)

Lemma ac3_loop_false c fuel : ∀ queue s queue' s',
  ac3_loop c fuel queue s = Return (false, queue') s' →
  shrinks s s' ∧
  ∃ x dx, domains s !! x = Some dx ∧ dx ≠ [] ∧ domains s' !! x = Some [].
Proof.
  induction fuel as [|fuel IH]; intros queue s queue' s' H; [done|].
  simpl in H. destruct (list_pop queue) as [[[x y] q]|]; [|by unfold ret in H].
  apply bind_Return in H as ([r q1] & s1 & Hbody & H).
  pose proof (ac3_body_progress _ _ _ _ _ _ _ _ Hbody) as [Hshr _].
  destruct r as [b|].
  - unfold ret in H. simplify_eq. split; [done|].
    unfold ac3_body in Hbody.
    apply bind_Return in Hbody as (revised & s1 & Hrev & Hbody).
    destruct revised; [|by unfold ret in Hbody].
    apply bind_Return in Hbody as (dx' & s2 & [Hx' ->]%domains_get_Return & Hbody).
    case_bool_decide; unfold ret in Hbody; simplify_eq.
    apply revise_true_nonempty in Hrev as (dx & Hx & Hne). eauto.
  - apply IH in H as (Hshr' & x' & dx & Hx & Hne & Hx').
    split; [by eapply shrinks_trans|].
    destruct (shrinks_lookup _ _ _ _ Hshr Hx) as (dx0 & Hx0 & Hsub).
    exists x', dx0. split_and!; [done| |done].
    intros ->. apply sublist_nil_r in Hsub. done.
Qed.

(** A domain that is empty before the revision is not emptied by it.  With
    the vocabulary OX, node consistency leaves both slots of the sample
    puzzle with an empty domain.  The revision of the popped pair then
    finds nothing to remove and reports no change, so the test for an
    empty domain, which sits under [if self.revise(x, y)], is not reached:
    the loop goes on to the next entry and ends with [True]. *)
Lemma ac3_goes_on_past_empty_domain :
  enforce_node_consistency (init (puzzle ["OX"]))
    = Return () (mkState {[ slot_across := []; slot_down := [] ]} []) ∧
  revise (puzzle ["OX"]) slot_across slot_down
      (mkState {[ slot_across := []; slot_down := [] ]} [])
    = Return false (mkState {[ slot_across := []; slot_down := [] ]} []) ∧
  domains (mkState {[ slot_across := []; slot_down := [] ]} []) !! slot_across
    = Some [] ∧
  ac3_loop (puzzle ["OX"]) 3 [(slot_down, slot_across); (slot_across, slot_down)]
      (mkState {[ slot_across := []; slot_down := [] ]} [])
    = Return (true, []) (mkState {[ slot_across := []; slot_down := [] ]} []) ∧
  ac3 (puzzle ["OX"]) None (mkState {[ slot_across := []; slot_down := [] ]} [])
    = Return true (mkState {[ slot_across := []; slot_down := [] ]} []).
Proof. by vm_compute. Qed.



(** ** AC-3: the fixed point *)

Lemma overlaps_mirrored_lookup c x y o :
  overlaps_mirrored c → overlaps c !! (x, y) = Some o →
  x ∈ variables c ∧ y ∈ variables c ∧ x ≠ y ∧
  ∀ i j, o = Some (i, j) → overlaps c !! (y, x) = Some (Some (j, i)).
Proof.
  intros Hwf Ho. destruct (map_Forall_lookup_1 _ _ _ _ Hwf Ho) as (? & ? & ? & Hm).
  split_and!; [done..|]. by intros i j ->.
Qed.

Lemma filter_eq_Forall {A} (P : A → Prop) `{!∀ x, Decision (P x)} (l : list A) :
  filter P l = l → Forall P l.
Proof.
  intros Heq. apply Forall_forall. intros x Hx. rewrite <-Heq in Hx.
  by apply list_elem_of_filter in Hx as [? _].
Qed.

Lemma Forall_filter_self {A} (P : A → Prop) `{!∀ x, Decision (P x)} (l : list A) :
  Forall P (filter P l).
Proof. apply Forall_forall. by intros x [? _]%list_elem_of_filter. Qed.

Lemma elem_of_neighbors c x z :
  z ∈ neighbors c x ↔
  z ∈ variables c ∧ z ≠ x ∧ ∃ ij, overlaps c !! (z, x) = Some (Some ij).
Proof.
  unfold neighbors. rewrite elem_of_filter. unfold overlap_defined.
  destruct (overlaps c !! (z, x)) as [[ij|]|]; naive_solver.
Qed.

(** One round keeps the invariant of the work list: every arc is either
    queued or consistent. *)
Lemma ac3_body_invariant c queue x y s queue' s' :
  overlaps_mirrored c →
  (∀ a b, (a, b) ∈ queue ++ [(x, y)] ∨ arc_ok c s a b) →
  ac3_body c queue x y s = Return (None, queue') s' →
  ∀ a b, (a, b) ∈ queue' ∨ arc_ok c s' a b.
Proof.
  intros Hwf Hinv Hbody. unfold ac3_body in Hbody.
  apply bind_Return in Hbody as (revised & s1 & Hrev & Hbody).
  assert (∀ a b, (a, b) ∈ queue ∨ (a, b) = (x, y) ∨ arc_ok c s a b) as Hinv'.
  { intros a b. destruct (Hinv a b) as [[?|?%list_elem_of_singleton]%elem_of_app|?]; auto. }
  clear Hinv.
  destruct (overlaps c !! (x, y)) as [[[i j]|]|] eqn:Ho.
  - destruct (overlaps_mirrored_lookup _ _ _ _ Hwf Ho) as (_ & _ & Hxy & Hsym).
    specialize (Hsym i j eq_refl).
    assert (∃ dx dy, domains s !! x = Some dx ∧ domains s !! y = Some dy)
      as (dx & dy & Hx & Hy).
    { unfold revise, overlaps_get in Hrev. rewrite Ho in Hrev.
      unfold bind at 1, ret at 1 in Hrev.
      apply bind_Return in Hrev as (dx & s2 & [Hx ->]%domains_get_Return & Hrev).
      apply bind_Return in Hrev as (dy & s2 & [Hy ->]%domains_get_Return & Hrev).
      eauto. }
    rewrite (revise_eq c x y i j dx dy s) in Hrev by done.
    destruct (forallb _ dx); [|done]. injection Hrev as <- <-.
    case_bool_decide as Hch; simpl in Hbody.
    + (* a revision was made *)
      apply bind_Return in Hbody as (dx' & s2 & [Hx' ->]%domains_get_Return & Hbody).
      simpl in Hx'. rewrite lookup_insert_eq in Hx'. injection Hx' as <-.
      case_bool_decide; unfold ret in Hbody; [done|]. injection Hbody as <- <-.
      intros a b. rewrite elem_of_app.
      destruct (Hinv' a b) as [?|[[= -> ->]|Hok]]; [by auto| |].
      * right. intros i' j' Ho'. rewrite Ho in Ho'. injection Ho' as <- <-.
        exists (filter (supported i j dy) dx), dy. simpl.
        rewrite lookup_insert_eq, lookup_insert_ne by done.
        split_and!; [done..|]. apply Forall_filter_self.
      * destruct (decide (b = x)) as [->|Hb].
        -- destruct (overlaps c !! (a, x)) as [[[i' j']|]|] eqn:Ho';
             [|right; intros i'' j'' Ho''; by rewrite Ho' in Ho''..].
           destruct (overlaps_mirrored_lookup _ _ _ _ Hwf Ho') as (Ha & _ & Hax & _).
           destruct (decide (a = y)) as [->|Hay].
           ++ right. intros i'' j'' Ho''. rewrite Ho' in Ho''.
              injection Ho'' as <- <-.
              rewrite Hsym in Ho'. injection Ho' as <- <-.
              destruct (Hok _ _ Hsym) as (dy0 & dx0 & Hy0 & Hx0 & Hall).
              rewrite Hy in Hy0. rewrite Hx in Hx0.
              injection Hy0 as <-. injection Hx0 as <-.
              exists dy, (filter (supported i j dy) dx). simpl.
              rewrite lookup_insert_eq, lookup_insert_ne by done.
              split_and!; [done..|].
              apply Forall_forall. intros w Hw.
              eapply Forall_forall in Hall; [|done].
              apply Exists_exists in Hall as (w' & Hw' & ch & Hch1 & Hch2).
              apply Exists_exists. exists w'. split; [|by exists ch].
              apply list_elem_of_filter. split; [|done].
              apply Exists_exists. exists w. split; [done|]. by exists ch.
           ++ left. right. apply list_elem_of_fmap. exists a. split; [done|].
              apply elem_of_elements, elem_of_difference. split.
              ** apply elem_of_neighbors. eauto.
              ** by intros ?%elem_of_singleton.
        -- right. intros i' j' Ho'.
           destruct (Hok _ _ Ho') as (da & db & Ha & Hb' & Hall).
           destruct (decide (a = x)) as [->|Ha'].
           ++ rewrite Hx in Ha. injection Ha as <-.
              exists (filter (supported i j dy) dx), db. simpl.
              rewrite lookup_insert_eq, lookup_insert_ne by done.
              split_and!; [done..|].
              apply Forall_forall. intros w [_ Hw]%list_elem_of_filter.
              by eapply Forall_forall in Hall.
           ++ exists da, db. simpl. by rewrite !lookup_insert_ne by done.
    + (* no revision *)
      unfold ret in Hbody. injection Hbody as <- <-.
      rewrite Hch, set_domains_id by done.
      intros a b. destruct (Hinv' a b) as [?|[[= -> ->]|Hok]]; [by auto| |by auto].
      right. intros i' j' Ho'. rewrite Ho in Ho'. injection Ho' as <- <-.
      exists dx, dy. split_and!; [done..|].
      by apply (filter_eq_Forall (supported i j dy)).
  - rewrite (revise_no_overlap c x y s Ho) in Hrev. injection Hrev as <- <-.
    unfold ret in Hbody. injection Hbody as <- <-.
    intros a b. destruct (Hinv' a b) as [?|[[= -> ->]|Hok]]; [by auto| |by auto].
    right. intros i' j' Ho'. by rewrite Ho in Ho'.
  - unfold revise, overlaps_get in Hrev. by rewrite Ho in Hrev.
Qed.

Lemma ac3_loop_invariant c fuel : ∀ queue s queue' s',
  overlaps_mirrored c →
  (∀ a b, (a, b) ∈ queue ∨ arc_ok c s a b) →
  ac3_loop c fuel queue s = Return (true, queue') s' →
  ∀ a b, arc_ok c s' a b.
Proof.
  induction fuel as [|fuel IH]; intros queue s queue' s' Hwf Hinv H; [done|].
  simpl in H. destruct (list_pop queue) as [[[x y] q]|] eqn:Hpop.
  - apply list_pop_Some in Hpop as ->.
    apply bind_Return in H as ([r q1] & s1 & Hbody & H).
    destruct r as [b|].
    + unfold ret in H. injection H as -> -> ->.
      unfold ac3_body in Hbody.
      apply bind_Return in Hbody as ([] & s2 & _ & Hbody); [|by unfold ret in Hbody].
      apply bind_Return in Hbody as (dx' & s3 & _ & Hbody).
      by case_bool_decide.
    + eapply IH; [done| |done]. by eapply ac3_body_invariant.
  - apply list_pop_None in Hpop as ->. unfold ret in H. injection H as <- <-.
    intros a b. by destruct (Hinv a b) as [?%elem_of_nil|?].
Qed.

(** C2 -- Arc-consistency fixed point.  On a puzzle whose overlap relation
    is well formed (entries are pairs of distinct slots of the puzzle, a
    defined overlap is mirrored for the reversed pair), whenever [ac3()]
    with its default queue returns [True], every ordered pair [(x, y)] with
    a defined overlap [(i, j)] is consistent in the final Domain Store:
    every word left in [x]'s domain has a word in [y]'s domain carrying at
    offset [j] the character it carries at offset [i]. *)
Theorem ac3_fixed_point (c : Crossword) (s s' : State) :
  overlaps_mirrored c →
  ac3 c None s = Return true s' →
  ∀ x y i j, overlaps c !! (x, y) = Some (Some (i, j)) →
    ∃ dx dy, domains s' !! x = Some dx ∧ domains s' !! y = Some dy ∧
      ∀ w, w ∈ dx →
        ∃ w' ch, w' ∈ dy ∧ String.get i w = Some ch ∧ String.get j w' = Some ch.
Proof.
  intros Hwf H x y i j Ho. unfold ac3 in H.
  apply bind_Return in H as (fuel & s1 & H1 & H).
  unfold gets in H1. injection H1 as <- <-.
  apply bind_Return in H as ([b q] & s2 & Hloop & H).
  unfold ret in H. simpl in H. injection H as -> ->.
  assert (∀ a b, (a, b) ∈ (map_to_list (overlaps c)).*1 ∨ arc_ok c s a b)
    as Hinit.
  { intros a b. destruct (overlaps c !! (a, b)) as [o|] eqn:Hab.
    - left. apply list_elem_of_fmap. exists ((a, b), o). split; [done|].
      by apply elem_of_map_to_list.
    - right. intros i' j' Ho'. by rewrite Hab in Ho'. }
  destruct (ac3_loop_invariant c _ _ _ _ _ Hwf Hinit Hloop x y i j Ho)
    as (dx & dy & Hx & Hy & Hall).
  exists dx, dy. split_and!; [done..|]. intros w Hw.
  eapply Forall_forall in Hall; [|done].
  apply Exists_exists in Hall as (w' & Hw' & ch & ? & ?). eauto.
Qed.

Lemma puzzle_wf vocabulary : wf_crossword (puzzle vocabulary).
Proof. split; apply (bool_decide_unpack _); by vm_compute. Qed.

Lemma ac3_fixed_point_witness :
  ∃ dx dy,
    domains (mkState {[ slot_across := ["CAT"]; slot_down := ["ARM"] ]} [])
      !! slot_across = Some dx ∧
    domains (mkState {[ slot_across := ["CAT"]; slot_down := ["ARM"] ]} [])
      !! slot_down = Some dy ∧
    ∀ w, w ∈ dx →
      ∃ w' ch, w' ∈ dy ∧ String.get 1 w = Some ch ∧ String.get 0 w' = Some ch.
Proof.
  apply (ac3_fixed_point (puzzle []) sample_state
           (mkState {[ slot_across := ["CAT"]; slot_down := ["ARM"] ]} [])).
  - apply (bool_decide_unpack _). by vm_compute.
  - by vm_compute.
  - reflexivity.
Defined.

(** ** Computations that only read *)

Create HintDb readonly.

Lemma readonly_ret {A} (a : A) : readonly (ret a).
Proof. intros s a' s' H. unfold ret in H. by simplify_eq. Qed.

Lemma readonly_raise {A} e : readonly (@raise A e).
Proof. by intros s a s' H. Qed.

Lemma readonly_bind {A B} (m : M A) (k : A → M B) :
  readonly m → (∀ a, readonly (k a)) → readonly (x <- m ;; k x).
Proof.
  intros Hm Hk s b s' (a & s1 & H1 & H2)%bind_Return.
  apply Hm in H1 as ->. by apply Hk in H2.
Qed.

Lemma readonly_index_checked {A} (o : option A) : readonly (index_checked o).
Proof. by intros s a s' [_ ?]%index_checked_Return. Qed.

Lemma readonly_domains_get v : readonly (domains_get v).
Proof. by intros s a s' [_ ?]%domains_get_Return. Qed.

Lemma readonly_domains_keys : readonly domains_keys.
Proof. intros s a s' H. unfold domains_keys in H. by simplify_eq. Qed.

Lemma readonly_dict_read r : readonly (dict_read r).
Proof. intros s a s' H. unfold dict_read in H. by simplify_eq. Qed.

Lemma readonly_overlaps_get c x y : readonly (overlaps_get c x y).
Proof.
  unfold overlaps_get.
  destruct (overlaps c !! (x, y)); [apply readonly_ret|apply readonly_raise].
Qed.

#[global] Hint Resolve readonly_ret readonly_raise readonly_index_checked
  readonly_domains_get readonly_domains_keys readonly_dict_read
  readonly_overlaps_get : readonly.

Ltac readonly_step :=
  match goal with
  | |- readonly (bind _ _) => apply readonly_bind; [|intros ?]
  | |- readonly _ => solve [auto with readonly]
  end.

Lemma readonly_decorate {A K} (key : A → M K) l :
  (∀ x, readonly (key x)) → readonly (decorate key l).
Proof.
  intros Hkey. induction l as [|x l IH]; simpl; repeat readonly_step.
Qed.

Lemma readonly_sort_by_key {A K} le (key : A → M K) l :
  (∀ x, readonly (key x)) → readonly (sort_by_key le key l).
Proof.
  intros Hkey. unfold sort_by_key. apply readonly_bind; [|auto with readonly].
  by apply readonly_decorate.
Qed.

Lemma readonly_count_eliminated_loop c var value ns :
  ∀ eliminated, readonly (count_eliminated_loop c var value ns eliminated).
Proof.
  induction ns as [|neighbor ns IH]; intros eliminated; simpl;
    [auto with readonly|].
  apply readonly_bind; [auto with readonly|]. intros [[index_var index_neighbor]|];
    [|apply IH].
  repeat readonly_step; apply IH.
Qed.

Lemma readonly_count_eliminated_values c var r value variable :
  readonly (count_eliminated_values c var r value variable).
Proof.
  unfold count_eliminated_values. apply readonly_bind; [auto with readonly|].
  intros a. apply readonly_count_eliminated_loop.
Qed.

Lemma readonly_order_domain_values c var r : readonly (order_domain_values c var r).
Proof.
  unfold order_domain_values. apply readonly_bind; [auto with readonly|].
  intros d. apply readonly_sort_by_key. intros value.
  apply readonly_count_eliminated_values.
Qed.

Lemma readonly_key_function c variable : readonly (key_function c variable).
Proof. unfold key_function. repeat readonly_step. Qed.

Lemma readonly_select_unassigned_variable c r :
  readonly (select_unassigned_variable c r).
Proof.
  unfold select_unassigned_variable.
  apply readonly_bind; [auto with readonly|]. intros keys.
  apply readonly_bind; [auto with readonly|]. intros a.
  apply readonly_bind; [apply readonly_sort_by_key, readonly_key_function|].
  intros [|var ?]; auto with readonly.
Qed.

Lemma readonly_assignment_complete r : readonly (assignment_complete r).
Proof. unfold assignment_complete. repeat readonly_step. Qed.

Lemma readonly_consistent c r : readonly (consistent c r).
Proof.
  unfold consistent. apply readonly_bind; [auto with readonly|]. intros a.
  destruct (negb (consistent_values _ _)); auto with readonly.
Qed.

(** ** The consistency check *)

Lemma consistent_values_false items : ∀ assigned_values,
  NoDup items.*1 →
  consistent_values items assigned_values = false ↔
  (∃ v w, (v, w) ∈ items ∧
          (String.length w ≠ Var.length v ∨ w ∈ assigned_values)) ∨
  (∃ v1 v2 w, v1 ≠ v2 ∧ (v1, w) ∈ items ∧ (v2, w) ∈ items).
Proof.
  induction items as [|[v w] items IH]; intros seen Hnd; simpl.
  - split; [done|].
    by intros [(? & ? & ?%elem_of_nil & _)|(? & ? & ? & _ & ?%elem_of_nil & _)].
  - apply NoDup_cons in Hnd as [Hv Hnd].
    destruct (bool_decide (Var.length v ≠ String.length w)) eqn:Hlen; simpl.
    { apply bool_decide_eq_true in Hlen. split; [|done]. intros _. left.
      exists v, w. split; [by left|]. left. congruence. }
    apply bool_decide_eq_false in Hlen.
    assert (Var.length v = String.length w) as Hlen'.
    { destruct (decide (Var.length v = String.length w)); [done|by destruct Hlen]. }
    destruct (bool_decide (w ∈ seen)) eqn:Hseen.
    { apply bool_decide_eq_true in Hseen. split; [|done]. intros _. left.
      exists v, w. split; [by left|]. by right. }
    apply bool_decide_eq_false in Hseen.
    rewrite (IH _ Hnd). split.
    + intros [(v' & w' & Hin & Hbad)|(v1 & v2 & w0 & Hne & H1 & H2)].
      * destruct Hbad as [?|[->%elem_of_singleton|?]%elem_of_union].
        -- left. exists v', w'. split; [by right|by left].
        -- right. exists v, v', w. split_and!; [|by left|by right].
           intros ->. apply Hv. apply list_elem_of_fmap. by exists (v', w).
        -- left. exists v', w'. split; [by right|by right].
      * right. exists v1, v2, w0. split_and!; [done|by right..].
    + intros [(v' & w' & [[= -> ->]|Hin]%elem_of_cons & Hbad)
             |(v1 & v2 & w0 & Hne & H1 & H2)].
      * by destruct Hbad.
      * left. exists v', w'. split; [done|].
        destruct Hbad; [by left|right; set_solver].
      * apply elem_of_cons in H1 as [Heq1|H1];
          apply elem_of_cons in H2 as [Heq2|H2]; simplify_eq.
        -- left. exists v2, w. split; [done|]. right. set_solver.
        -- left. exists v1, w. split; [done|]. right. set_solver.
        -- right. by exists v1, v2, w0.
Qed.

Lemma consistent_values_spec (a : assignment) :
  consistent_values (map_to_list a) ∅ = false ↔ word_reused a ∨ length_mismatch a.
Proof.
  rewrite consistent_values_false by apply NoDup_fst_map_to_list. split.
  - intros [(v & w & Hin%elem_of_map_to_list & [?|?])
           |(v1 & v2 & w & ? & H1%elem_of_map_to_list & H2%elem_of_map_to_list)].
    + right. by exists v, w.
    + set_solver.
    + left. by exists v1, v2, w.
  - intros [(v1 & v2 & w & ? & H1 & H2)|(v & w & Hv & ?)].
    + right. exists v1, v2, w. by rewrite !elem_of_map_to_list.
    + left. exists v, w. rewrite elem_of_map_to_list. auto.
Qed.

Lemma consistent_overlaps_spec (a : assignment) items :
  (∀ v w, a !! v = Some w → String.length w = Var.length v) →
  Forall (λ e, offsets_ok e.1 e.2) items →
  ∃ b, consistent_overlaps a items = Some b ∧
    (b = false ↔
     ∃ v1 v2 i j w1 w2, ((v1, v2), Some (i, j)) ∈ items ∧
       a !! v1 = Some w1 ∧ a !! v2 = Some w2 ∧
       String.get i w1 ≠ String.get j w2).
Proof.
  intros Hlen. induction 1 as [|[[v1 v2] o] items Hoff _ IH]; simpl.
  - exists true. split; [done|]. split; [done|].
    by intros (? & ? & ? & ? & ? & ? & ?%elem_of_nil & _).
  - destruct IH as (b & Hb & Hbiff).
    assert (∀ b', consistent_overlaps a items = Some b' →
              (∀ i j w1 w2, o = Some (i, j) → a !! v1 = Some w1 →
                 a !! v2 = Some w2 → String.get i w1 = String.get j w2) →
              b' = false ↔
              ∃ v1' v2' i j w1 w2,
                ((v1', v2'), Some (i, j)) ∈ ((v1, v2), o) :: items ∧
                a !! v1' = Some w1 ∧ a !! v2' = Some w2 ∧
                String.get i w1 ≠ String.get j w2) as Hskip.
    { intros b' Hb' Hagree. rewrite Hb in Hb'. injection Hb' as <-.
      rewrite Hbiff. split.
      - intros (v1' & v2' & i & j & w1 & w2 & Hin & H).
        exists v1', v2', i, j, w1, w2. split; [by right|done].
      - intros (v1' & v2' & i & j & w1 & w2 & [Heq|Hin]%elem_of_cons & H1 & H2 & Hne).
        + simplify_eq. destruct Hne. by eapply Hagree.
        + by exists v1', v2', i, j, w1, w2. }
    destruct (a !! v1) as [w1|] eqn:H1; [|exists b; split; [done|]; by apply Hskip].
    destruct (a !! v2) as [w2|] eqn:H2; [|exists b; split; [done|]; by apply Hskip].
    destruct o as [[i j]|]; [|exists b; split; [done|]; by apply Hskip].
    destruct Hoff as [Hi Hj]. simpl in Hi, Hj.
    rewrite <-(Hlen _ _ H1) in Hi. rewrite <-(Hlen _ _ H2) in Hj.
    apply get_is_Some in Hi as [c1 Hc1]. apply get_is_Some in Hj as [c2 Hc2].
    rewrite Hc1, Hc2. simpl.
    destruct (decide (c1 ≠ c2)) as [Hne|Heq].
    + exists false. split; [done|]. split; [|done]. intros _.
      exists v1, v2, i, j, w1, w2. split_and!; [by left|done..|].
      rewrite Hc1, Hc2. congruence.
    + exists b. split; [done|]. apply Hskip; [done|].
      intros i' j' w1' w2' [= <- <-] [= <-] [= <-]. rewrite Hc1, Hc2. f_equal.
      by apply dec_stable.
Qed.

Lemma consistent_spec c r s :
  offsets_in_range c →
  ∃ b, consistent c r s = Return b s ∧ (b = false ↔ violates c (dicts s !!! r)).
Proof.
  intros Hoff. unfold consistent, dict_read, bind at 1.
  set (a := dicts s !!! r).
  destruct (consistent_values (map_to_list a) ∅) eqn:Hvals; simpl.
  - assert (¬ (word_reused a ∨ length_mismatch a)) as Hgood.
    { rewrite <-consistent_values_spec. congruence. }
    destruct (consistent_overlaps_spec a (map_to_list (overlaps c)))
      as (b & Hb & Hbiff).
    { intros v w Hv. destruct (decide (String.length w = Var.length v)); [done|].
      destruct Hgood. right. by exists v, w. }
    { apply map_Forall_to_list in Hoff. eapply Forall_impl; [done|]. by intros [[] ?]. }
    exists b. rewrite Hb. split; [done|]. rewrite Hbiff. unfold violates. split.
    + intros (v1 & v2 & i & j & w1 & w2 & Hin%elem_of_map_to_list & H).
      right. right. by exists v1, v2, i, j, w1, w2.
    + intros [?|[?|(v1 & v2 & i & j & w1 & w2 & Hin & H)]]; [tauto..|].
      exists v1, v2, i, j, w1, w2. by rewrite elem_of_map_to_list.
  - exists false. split; [done|]. split; [|done]. intros _.
    apply consistent_values_spec in Hvals. unfold violates. tauto.
Qed.

Lemma consistent_overlaps_sound (a : assignment) items : ∀ b,
  consistent_overlaps a items = Some b →
  b = false ↔
  ∃ v1 v2 i j w1 w2, ((v1, v2), Some (i, j)) ∈ items ∧
    a !! v1 = Some w1 ∧ a !! v2 = Some w2 ∧
    String.get i w1 ≠ String.get j w2.
Proof.
  induction items as [|[[v1 v2] o] items IH]; intros b Hb; simpl in Hb.
  - injection Hb as <-. split; [done|].
    by intros (? & ? & ? & ? & ? & ? & ?%elem_of_nil & _).
  - assert (consistent_overlaps a items = Some b →
            (∀ i j w1 w2, o = Some (i, j) → a !! v1 = Some w1 →
               a !! v2 = Some w2 → String.get i w1 = String.get j w2) →
            b = false ↔
            ∃ v1' v2' i j w1 w2,
              ((v1', v2'), Some (i, j)) ∈ ((v1, v2), o) :: items ∧
              a !! v1' = Some w1 ∧ a !! v2' = Some w2 ∧
              String.get i w1 ≠ String.get j w2) as Hskip.
    { intros Hb' Hagree. rewrite (IH _ Hb'). split.
      - intros (v1' & v2' & i & j & w1 & w2 & Hin & H).
        exists v1', v2', i, j, w1, w2. split; [by right|done].
      - intros (v1' & v2' & i & j & w1 & w2 & [Heq|Hin]%elem_of_cons & H1 & H2 & Hne).
        + simplify_eq. destruct Hne. by eapply Hagree.
        + by exists v1', v2', i, j, w1, w2. }
    destruct (a !! v1) as [w1|] eqn:H1; [|by apply Hskip].
    destruct (a !! v2) as [w2|] eqn:H2; [|by apply Hskip].
    destruct o as [[i j]|]; [|by apply Hskip].
    destruct (String.get i w1) as [c1|] eqn:Hc1; [|done].
    destruct (String.get j w2) as [c2|] eqn:Hc2; [|done].
    simpl in Hb. destruct (decide (c1 ≠ c2)) as [Hne|Heq].
    + injection Hb as <-. split; [|done]. intros _.
      exists v1, v2, i, j, w1, w2. split_and!; [by left|done..|].
      rewrite Hc1, Hc2. congruence.
    + apply Hskip; [done|].
      intros i' j' w1' w2' [= <- <-] [= <-] [= <-]. rewrite Hc1, Hc2. f_equal.
      by apply dec_stable.
Qed.

Lemma consistent_sound c r s b s' :
  consistent c r s = Return b s' →
  s' = s ∧ (b = false ↔ violates c (dicts s !!! r)).
Proof.
  intros H. pose proof (readonly_consistent c r _ _ _ H) as ->.
  split; [done|]. unfold consistent, dict_read, bind at 1 in H.
  set (a := dicts s !!! r) in *.
  destruct (consistent_values (map_to_list a) ∅) eqn:Hvals; simpl in H.
  - apply index_checked_Return in H as [H _].
    assert (¬ (word_reused a ∨ length_mismatch a)) as Hgood.
    { rewrite <-consistent_values_spec. congruence. }
    rewrite (consistent_overlaps_sound _ _ _ H). unfold violates. split.
    + intros (v1 & v2 & i & j & w1 & w2 & Hin%elem_of_map_to_list & H').
      right. right. by exists v1, v2, i, j, w1, w2.
    + intros [?|[?|(v1 & v2 & i & j & w1 & w2 & Hin & H')]]; [tauto..|].
      exists v1, v2, i, j, w1, w2. by rewrite elem_of_map_to_list.
  - unfold ret in H. injection H as <-. split; [|done]. intros _.
    apply consistent_values_spec in Hvals. unfold violates. tauto.
Qed.

(** C9 -- Consistency Check validity.  Whenever [consistent(assignment)]
    returns, for a complete or a partial assignment, it leaves the state as
    it is and returns [False] iff two distinct slots are assigned the same
    word, or some assigned word has not the length of its slot, or two
    assigned slots with a defined overlap disagree at the overlap offsets.
    It does return on every puzzle whose overlap offsets fall inside their
    slots; so there it returns [True] for an assignment with none of
    these. *)
Theorem consistent_valid (c : Crossword) (r : ref) (s : State) :
  (∀ b s', consistent c r s = Return b s' →
     s' = s ∧
     (b = false ↔
      word_reused (dicts s !!! r) ∨ length_mismatch (dicts s !!! r) ∨
      overlap_conflict c (dicts s !!! r))) ∧
  (offsets_in_range c → ∃ b, consistent c r s = Return b s) ∧
  (offsets_in_range c → ¬ violates c (dicts s !!! r) →
   consistent c r s = Return true s).
Proof.
  split_and!.
  - intros b s'. apply consistent_sound.
  - intros Hoff. destruct (consistent_spec c r s Hoff) as (b & Hb & _). eauto.
  - intros Hoff Hgood. destruct (consistent_spec c r s Hoff) as (b & Hb & Hbiff).
    destruct b; [done|]. destruct Hgood. by apply Hbiff.
Qed.

Lemma consistent_valid_witness :
  consistent (puzzle []) 0
    (mkState ∅ [ {[ slot_across := "CAT"; slot_down := "ARM" ]} ])
  = Return true (mkState ∅ [ {[ slot_across := "CAT"; slot_down := "ARM" ]} ]) ∧
  (false = false ↔
   word_reused {[ slot_across := "CAT"; slot_down := "DOG" ]} ∨
   length_mismatch {[ slot_across := "CAT"; slot_down := "DOG" ]} ∨
   overlap_conflict (puzzle []) {[ slot_across := "CAT"; slot_down := "DOG" ]}).
Proof.
  split.
  - destruct (consistent_valid (puzzle []) 0
      (mkState ∅ [ {[ slot_across := "CAT"; slot_down := "ARM" ]} ]))
      as (_ & Hret & _).
    destruct Hret as [b Hb]; [apply (bool_decide_unpack _); by vm_compute|].
    rewrite Hb. by vm_compute in Hb.
  - destruct (consistent_valid (puzzle []) 0
      (mkState ∅ [ {[ slot_across := "CAT"; slot_down := "DOG" ]} ]))
      as (Hsound & _ & _).
    refine (proj2 (Hsound false _ _)). by vm_compute.
Defined.

(** ** Sorting *)

Lemma insert_by_perm {A K} (le : K → K → bool) (x : K * A) l :
  insert_by le x l ≡ₚ x :: l.
Proof.
  induction l as [|y l IH]; simpl; [done|].
  destruct (le x.1 y.1); [done|]. rewrite IH. apply Permutation_swap.
Qed.

Lemma stable_sort_perm {A K} (le : K → K → bool) (l : list (K * A)) :
  stable_sort le l ≡ₚ l.
Proof.
  induction l as [|x l IH]; simpl; [done|].
  rewrite insert_by_perm. by rewrite IH.
Qed.

Lemma decorate_returns {A K} (key : A → M K) l s :
  (∀ x, x ∈ l → ∃ k, key x s = Return k s) →
  ∃ kl, decorate key l s = Return kl s ∧ kl.*2 = l.
Proof.
  induction l as [|x l IH]; intros Hkey; simpl.
  - by exists [].
  - destruct (Hkey x) as [k Hk]; [by left|].
    destruct IH as (kl & Hkl & Heq); [intros; apply Hkey; by right|].
    exists ((k, x) :: kl). split; [|by rewrite fmap_cons, Heq].
    by rewrite (bind_eq _ _ _ _ _ Hk), (bind_eq _ _ _ _ _ Hkl).
Qed.

Lemma sort_by_key_returns {A K} le (key : A → M K) l s :
  (∀ x, x ∈ l → ∃ k, key x s = Return k s) →
  ∃ l', sort_by_key le key l s = Return l' s ∧ l' ≡ₚ l.
Proof.
  intros Hkey. destruct (decorate_returns key l s Hkey) as (kl & Hkl & Heq).
  exists (stable_sort le kl).*2. unfold sort_by_key.
  rewrite (bind_eq _ _ _ _ _ Hkl). split; [done|].
  by rewrite stable_sort_perm, Heq.
Qed.

(** ** Search leaves what was there alone *)

Lemma extends_refl s : extends s s.
Proof. by split. Qed.

Lemma extends_trans s1 s2 s3 : extends s1 s2 → extends s2 s3 → extends s1 s3.
Proof. intros [? ?] [? ?]. split; [congruence|by etrans]. Qed.

Lemma extends_lookup s s' l a :
  extends s s' → dicts s !! l = Some a → dicts s' !! l = Some a.
Proof. intros [_ Hp] Hl. by eapply prefix_lookup_Some. Qed.

(** [new_assignment = assignment.copy(); new_assignment[var] = value]
    appends one dict to the store and touches nothing else. *)
Lemma copy_setitem_eq {B} r var value (k : ref → M B) s :
  (new_assignment <- dict_copy r ;;
   _ <- dict_setitem new_assignment var value ;;
   k new_assignment) s =
  k (length (dicts s))
    (mkState (domains s) (dicts s ++ [<[var := value]> (dicts s !!! r)])).
Proof.
  unfold bind, dict_copy, dict_setitem, set_dicts. simpl. f_equal. f_equal.
  rewrite list_lookup_total_middle by done.
  rewrite <-(Nat.add_0_r (length (dicts s))) at 1.
  by rewrite insert_app_r.
Qed.

Lemma extends_snoc s a :
  extends s (mkState (domains s) (dicts s ++ [a])).
Proof. split; [done|]. by apply prefix_app_r. Qed.

Lemma backtrack_values_extends c recurse r var values :
  (∀ r0 s0 res s0', recurse r0 s0 = Return res s0' → extends s0 s0') →
  ∀ s res s',
    backtrack_values c recurse r var values s = Return res s' → extends s s'.
Proof.
  intros Hrec. induction values as [|value values IH]; intros s res s' H.
  - simpl in H. unfold ret in H. simplify_eq. apply extends_refl.
  - simpl in H. rewrite copy_setitem_eq in H.
    eapply extends_trans; [apply extends_snoc|].
    apply bind_Return in H as (ok & s1 & Hok & H).
    apply readonly_consistent in Hok as ->.
    destruct ok; [|by eapply IH].
    apply bind_Return in H as (result & s2 & Hres & H).
    apply Hrec in Hres. eapply extends_trans; [done|].
    destruct result; [|by eapply IH].
    unfold ret in H. simplify_eq. apply extends_refl.
Qed.

Lemma backtrack_extends c fuel : ∀ r s res s',
  backtrack c fuel r s = Return res s' → extends s s'.
Proof.
  induction fuel as [|fuel IH]; intros r s res s' H; [done|]. simpl in H.
  apply bind_Return in H as (complete & s1 & Hc & H).
  apply readonly_assignment_complete in Hc as ->.
  destruct complete.
  { unfold ret in H. simplify_eq. apply extends_refl. }
  apply bind_Return in H as (var & s1 & Hv & H).
  apply readonly_select_unassigned_variable in Hv as ->.
  apply bind_Return in H as (values & s1 & Ho & H).
  apply readonly_order_domain_values in Ho as ->.
  by eapply backtrack_values_extends.
Qed.

(** C10 -- Search is effect-free on pre-existing state.  Whenever
    [backtrack] returns (a solution or [None]), the Domain Store is what it
    was and every assignment dict that existed before the call, the
    caller's own included, holds exactly the bindings it held; new dicts
    are only added after them.  [order_domain_values] and
    [select_unassigned_variable] return in the very state they were called
    in. *)
Theorem backtrack_effect_free (c : Crossword) :
  (∀ fuel r s res s',
     backtrack c fuel r s = Return res s' →
     domains s' = domains s ∧
     (∀ l a, dicts s !! l = Some a → dicts s' !! l = Some a) ∧
     (r < length (dicts s) → dicts s' !!! r = dicts s !!! r)) ∧
  (∀ var r s values s',
     order_domain_values c var r s = Return values s' → s' = s) ∧
  (∀ r s var s',
     select_unassigned_variable c r s = Return var s' → s' = s).
Proof.
  split_and!.
  - intros fuel r s res s' H. apply backtrack_extends in H as Hext.
    split_and!; [apply Hext|by intros; eapply extends_lookup|].
    intros Hr. apply lookup_lt_is_Some in Hr as [a Ha].
    rewrite (list_lookup_total_correct _ _ _ Ha).
    apply list_lookup_total_correct. by eapply extends_lookup.
  - intros var r s values s'. apply readonly_order_domain_values.
  - intros r s var s'. apply readonly_select_unassigned_variable.
Qed.

Lemma backtrack_effect_free_witness :
  domains (mkState {[ slot_across := ["CAT"]; slot_down := ["ARM"] ]}
             [∅; {[ slot_across := "CAT" ]};
              {[ slot_across := "CAT"; slot_down := "ARM" ]}])
  = {[ slot_across := ["CAT"]; slot_down := ["ARM"] ]} ∧
  dicts (mkState {[ slot_across := ["CAT"]; slot_down := ["ARM"] ]}
           [∅; {[ slot_across := "CAT" ]};
            {[ slot_across := "CAT"; slot_down := "ARM" ]}]) !!! 0
  = (∅ : assignment).
Proof.
  destruct (backtrack_effect_free (puzzle [])) as (Hframe & _ & _).
  destruct (Hframe 3 0
    (mkState {[ slot_across := ["CAT"]; slot_down := ["ARM"] ]} [∅])
    (Some 2)
    (mkState {[ slot_across := ["CAT"]; slot_down := ["ARM"] ]}
       [∅; {[ slot_across := "CAT" ]};
        {[ slot_across := "CAT"; slot_down := "ARM" ]}]))
    as (Hd & _ & Hr); [by vm_compute|].
  split; [exact Hd|]. apply Hr. simpl. lia.
Defined.

(** ** Search: what it finds *)

Lemma violates_mono c (a a' : assignment) :
  a ⊆ a' → violates c a → violates c a'.
Proof.
  intros Hsub [(v1 & v2 & w & ? & H1 & H2)|[(v & w & Hv & ?)
              |(v1 & v2 & i & j & w1 & w2 & ? & H1 & H2 & ?)]].
  - left. exists v1, v2, w. eauto using lookup_weaken.
  - right. left. exists v, w. eauto using lookup_weaken.
  - right. right. exists v1, v2, i, j, w1, w2. eauto 10 using lookup_weaken.
Qed.

Lemma violates_empty c : ¬ violates c ∅.
Proof.
  intros [(v1 & v2 & w & ? & H1 & H2)|[(v & w & H1 & ?)
         |(v1 & v2 & i & j & w1 & w2 & ? & H1 & H2 & ?)]];
    by rewrite lookup_empty in H1.
Qed.

Lemma count_differ_is_Some value index_var index_neighbor d :
  index_var < String.length value → indexable index_neighbor d →
  is_Some (count_differ value index_var index_neighbor d).
Proof.
  intros [c2 Hc2]%get_is_Some. induction 1 as [|val d [c1 Hc1]%get_is_Some _ [n IH]];
    simpl; [by eexists|].
  rewrite Hc1, Hc2, IH. simpl. by eexists.
Qed.

Lemma store_ok_indexable c s v d i :
  store_ok c s → domains s !! v = Some d → i < Var.length v → indexable i d.
Proof.
  intros (_ & Hnode & _) Hv Hi. apply Forall_forall. intros w Hw.
  by rewrite (Hnode _ _ _ Hv Hw).
Qed.

Lemma store_ok_lookup c s v :
  store_ok c s → v ∈ variables c → ∃ d, domains s !! v = Some d.
Proof. intros [Hdom _] Hv. rewrite <-Hdom in Hv. by apply elem_of_dom in Hv. Qed.

Lemma offsets_in_range_lookup c x y i j :
  offsets_in_range c → overlaps c !! (x, y) = Some (Some (i, j)) →
  i < Var.length x ∧ j < Var.length y.
Proof. intros Hwf Ho. apply (map_Forall_lookup_1 _ _ _ _ Hwf Ho). Qed.

Lemma count_eliminated_loop_returns c s var d value ns :
  wf_crossword c → store_ok c s →
  domains s !! var = Some d → value ∈ d →
  (∀ neighbor, neighbor ∈ ns → neighbor ∈ neighbors c var) →
  ∀ eliminated, ∃ n,
    count_eliminated_loop c var value ns eliminated s = Return n s.
Proof.
  intros [Hmir Hoff] Hok Hvar Hvalue.
  induction ns as [|neighbor ns IH]; intros Hns eliminated; simpl.
  - by eexists.
  - assert (neighbor ∈ neighbors c var)
      as (Hnb & Hne & [i j] & Ho)%elem_of_neighbors by (apply Hns; by left).
    destruct (overlaps_mirrored_lookup _ _ _ _ Hmir Ho) as (_ & _ & _ & Hsym).
    specialize (Hsym i j eq_refl).
    unfold overlaps_get. rewrite Hsym. unfold bind at 1, ret at 1.
    destruct (store_ok_lookup _ _ _ Hok Hnb) as [dn Hdn].
    rewrite (bind_eq _ _ _ _ _ (domains_get_eq _ _ _ Hdn)).
    destruct (offsets_in_range_lookup _ _ _ _ _ Hoff Hsym) as [Hj Hi].
    destruct (count_differ_is_Some value j i dn) as [n Hn].
    { destruct Hok as (_ & Hnode & _). by rewrite (Hnode _ _ _ Hvar Hvalue). }
    { by eapply store_ok_indexable. }
    rewrite Hn. unfold bind at 1, index_checked, ret at 1.
    apply IH. intros ? ?. apply Hns. by right.
Qed.

Lemma order_domain_values_returns c s var r d :
  wf_crossword c → store_ok c s → domains s !! var = Some d →
  ∃ values, order_domain_values c var r s = Return values s ∧ values ≡ₚ d.
Proof.
  intros Hwf Hok Hvar. unfold order_domain_values.
  rewrite (bind_eq _ _ _ _ _ (domains_get_eq _ _ _ Hvar)).
  apply sort_by_key_returns. intros value Hvalue.
  unfold count_eliminated_values, dict_read, bind at 1.
  eapply count_eliminated_loop_returns; [done..|].
  intros neighbor [? _]%elem_of_elements%elem_of_difference. done.
Qed.

Lemma select_unassigned_variable_returns c s r v :
  is_Some (domains s !! v) → (dicts s !!! r) !! v = None →
  ∃ var d, select_unassigned_variable c r s = Return var s ∧
    domains s !! var = Some d ∧ (dicts s !!! r) !! var = None.
Proof.
  intros [dv Hv] Hfree. unfold select_unassigned_variable, domains_keys, dict_read.
  unfold bind at 1 2.
  set (unassigned := filter _ _).
  assert (∀ x, x ∈ unassigned →
            is_Some (domains s !! x) ∧ (dicts s !!! r) !! x = None) as Hun.
  { intros x [Hx [[x' d] [-> Hin]]%list_elem_of_fmap]%list_elem_of_filter.
    apply elem_of_map_to_list in Hin. eauto. }
  assert (v ∈ unassigned) as Hvin.
  { apply list_elem_of_filter. split; [done|]. apply list_elem_of_fmap.
    exists (v, dv). split; [done|]. by apply elem_of_map_to_list. }
  destruct (sort_by_key_returns tuple_le (key_function c) unassigned s)
    as (sorted & Hsorted & Hperm).
  { intros x [[d Hd] _]%Hun. unfold key_function.
    rewrite (bind_eq _ _ _ _ _ (domains_get_eq _ _ _ Hd)). by eexists. }
  rewrite (bind_eq _ _ _ _ _ Hsorted).
  destruct sorted as [|var sorted].
  { apply Permutation_nil_l in Hperm. rewrite <-Hperm in Hvin.
    by apply elem_of_nil in Hvin. }
  destruct (Hun var) as [[d Hd] Hnone].
  { rewrite <-Hperm. by left. }
  by exists var, d.
Qed.

Lemma store_ok_ext c s s' :
  domains s' = domains s → store_ok c s → store_ok c s'.
Proof. unfold store_ok. by intros ->. Qed.

Lemma extension_insert D (a a' : assignment) var w d :
  a !! var = None → D !! var = Some d → w ∈ d →
  extension D (<[var := w]> a) a' → extension D a a'.
Proof.
  intros Hfree Hvar Hw (Hsub & Hdom & Hvals). split_and!; [|done|].
  - etrans; [|done]. by apply insert_subseteq.
  - intros v w' Hv. destruct (Hvals v w' Hv) as [Hin|?]; [|by right].
    destruct (decide (var = v)) as [<-|Hne].
    + rewrite lookup_insert_eq in Hin. injection Hin as <-. right. eauto.
    + rewrite lookup_insert_ne in Hin by done. by left.
Qed.

Lemma extension_narrow D (a a' : assignment) var w :
  a !! var = None → a' !! var = Some w →
  extension D a a' → extension D (<[var := w]> a) a'.
Proof.
  intros Hfree Hvar (Hsub & Hdom & Hvals). split_and!; [|done|].
  - by apply insert_subseteq_l.
  - intros v w' Hv. destruct (Hvals v w' Hv) as [Hin|?]; [|by right].
    left. rewrite lookup_insert_ne; [done|]. intros ->. congruence.
Qed.

Lemma size_open_slots (D : gset Var.t) (a : assignment) var w n :
  var ∈ D → a !! var = None →
  size (D ∖ dom a) < S n → size (D ∖ dom (<[var := w]> a)) < n.
Proof.
  intros HD Hfree Hlt. rewrite dom_insert_L.
  assert (D ∖ ({[var]} ∪ dom a) ⊂ D ∖ dom a) as Hsub%subset_size; [|lia].
  apply not_elem_of_dom in Hfree. set_solver.
Qed.

Section backtrack_values.
Context (c : Crossword) (n : nat) (r : ref) (var : Var.t) (d : list word).
Context (a : assignment) (s : State).
Context (Hwf : wf_crossword c) (Hok : store_ok c s).
Context (Hr : dicts s !! r = Some a) (Hfree : a !! var = None).
Context (Hvar : domains s !! var = Some d).
Context (Hdom : dom a ⊆ dom (domains s)).
Context (Hsize : size (dom (domains s) ∖ dom a) < S n).
Context (IH : ∀ r1 s1 a1,
  store_ok c s1 → dicts s1 !! r1 = Some a1 →
  dom a1 ⊆ dom (domains s1) →
  size (dom (domains s1) ∖ dom a1) < n →
  ∃ res s', backtrack c n r1 s1 = Return res s' ∧ extends s1 s' ∧
            search_post c (domains s1) a1 s' res).

Lemma backtrack_values_spec values : ∀ s1,
  extends s s1 → (∀ w, w ∈ values → w ∈ d) →
  ∃ res s',
    backtrack_values c (backtrack c n) r var values s1 = Return res s' ∧
    extends s1 s' ∧
    match res with
    | Some r' =>
        ∃ a', dicts s' !! r' = Some a' ∧ extension (domains s) a a' ∧
              ¬ violates c a'
    | None =>
        ∀ w, w ∈ values → ∀ a', ¬ completes c (domains s) (<[var := w]> a) a'
    end.
Proof using All.
  induction values as [|value values IHv]; intros s1 Hext Hvals.
  - exists None, s1. split_and!; [done|apply extends_refl|].
    by intros w ?%elem_of_nil.
  - simpl. rewrite copy_setitem_eq.
    pose proof (extends_lookup _ _ _ _ Hext Hr) as Hr1.
    rewrite (list_lookup_total_correct _ _ _ Hr1).
    set (a_w := <[var := value]> a).
    set (s2 := mkState (domains s1) (dicts s1 ++ [a_w])).
    assert (extends s1 s2) as Hext12 by apply extends_snoc.
    assert (domains s2 = domains s) as HD2 by apply Hext.
    assert (dicts s2 !! length (dicts s1) = Some a_w) as Hnew.
    { by apply list_lookup_middle. }
    assert (value ∈ d) as Hvalue by (apply Hvals; by left).
    assert (∀ w, w ∈ values → w ∈ d) as Hvals' by (intros; apply Hvals; by right).
    destruct (consistent_spec c (length (dicts s1)) s2 (proj2 Hwf))
      as (ok & Hcons & Hviol).
    rewrite (list_lookup_total_correct _ _ _ Hnew) in Hviol.
    rewrite (bind_eq _ _ _ _ _ Hcons).
    destruct ok.
    + (* the extension is consistent: recurse *)
      assert (¬ violates c a_w) as Hgood by (intros ?%Hviol; done).
      destruct (IH (length (dicts s1)) s2 a_w) as (res & s3 & Hrec & Hext23 & Hpost).
      { by apply (store_ok_ext c s). }
      { done. }
      { rewrite HD2. unfold a_w. rewrite dom_insert_L.
        apply elem_of_dom_2 in Hvar. set_solver. }
      { rewrite HD2. apply size_open_slots; [by eapply elem_of_dom_2|done..]. }
      rewrite (bind_eq _ _ _ _ _ Hrec). rewrite HD2 in Hpost.
      destruct res as [r'|]; simpl in Hpost.
      * destruct Hpost as (a' & Ha' & Hex & Hcase).
        exists (Some r'), s3. split_and!; [done|by eapply extends_trans|].
        exists a'. split_and!; [done|by eapply extension_insert|].
        by destruct Hcase as [->|?].
      * destruct (IHv s3) as (res & s4 & Hloop & Hext34 & Hres); [|done|].
        { eauto using extends_trans. }
        exists res, s4. split_and!; [done|eauto using extends_trans|].
        destruct res as [r'|]; [done|].
        intros w [->|Hw]%elem_of_cons; [apply Hpost|by apply Hres].
    + (* the extension breaks a constraint: next value *)
      assert (violates c a_w) as Hbad by (by apply Hviol).
      destruct (IHv s2) as (res & s4 & Hloop & Hext24 & Hres); [|done|].
      { eauto using extends_trans. }
      exists res, s4. split_and!; [done|eauto using extends_trans|].
      destruct res as [r'|]; [done|].
      intros w [->|Hw]%elem_of_cons; [|by apply Hres].
      intros a' [(Hsub & _) Hgood]. apply Hgood. by eapply violates_mono.
Qed.
End backtrack_values.

Lemma assignment_complete_eq r s :
  assignment_complete r s =
  Return (bool_decide (dom (domains s) ⊆ dom (dicts s !!! r))) s.
Proof.
  unfold assignment_complete, domains_keys, dict_read, bind, ret. f_equal.
  apply eq_true_iff_eq. rewrite forallb_forall, bool_decide_eq_true. split.
  - intros H v [d Hv]%elem_of_dom. apply elem_of_dom.
    eapply bool_decide_eq_true, H, list_elem_of_In, list_elem_of_fmap.
    exists (v, d). split; [done|]. by apply elem_of_map_to_list.
  - intros H v [[v' d] [-> Hin%elem_of_map_to_list]]%list_elem_of_In%list_elem_of_fmap.
    apply bool_decide_eq_true, elem_of_dom, H. by eapply elem_of_dom_2.
Qed.

Lemma backtrack_spec c n :
  wf_crossword c →
  ∀ r s a,
    store_ok c s → dicts s !! r = Some a →
    dom a ⊆ dom (domains s) →
    size (dom (domains s) ∖ dom a) < n →
    ∃ res s', backtrack c n r s = Return res s' ∧ extends s s' ∧
              search_post c (domains s) a s' res.
Proof.
  intros Hwf. induction n as [|n IH]; intros r s a Hok Hr Hdom Hsize; [lia|].
  simpl. rewrite (bind_eq _ _ _ _ _ (assignment_complete_eq r s)).
  rewrite (list_lookup_total_correct _ _ _ Hr).
  case_bool_decide as Hcomplete.
  - exists (Some r), s. split_and!; [done|apply extends_refl|].
    exists a. split_and!; [done| |by left].
    split_and!; [done|set_solver|by left].
  - assert (∃ v, v ∈ dom (domains s) ∧ a !! v = None) as (v & Hv & Hvfree).
    { apply dec_stable. intros Hn. apply Hcomplete. intros v Hv.
      apply elem_of_dom. destruct (a !! v) eqn:Hav; [done|]. destruct Hn. eauto. }
    destruct (select_unassigned_variable_returns c s r v) as (var & d & Hsel & Hvar & Hfree).
    { by apply elem_of_dom. }
    { by rewrite (list_lookup_total_correct _ _ _ Hr). }
    rewrite (list_lookup_total_correct _ _ _ Hr) in Hfree.
    rewrite (bind_eq _ _ _ _ _ Hsel).
    destruct (order_domain_values_returns c s var r d Hwf Hok Hvar)
      as (values & Hord & Hperm).
    rewrite (bind_eq _ _ _ _ _ Hord).
    destruct (backtrack_values_spec c n r var d a s Hwf Hok Hr Hfree Hvar Hdom
                Hsize IH values s) as (res & s' & Hloop & Hext & Hres).
    { apply extends_refl. }
    { intros w. by rewrite Hperm. }
    exists res, s'. split_and!; [done..|].
    destruct res as [r'|]; simpl.
    + destruct Hres as (a' & Ha' & Hex & Hgood). exists a'. auto.
    + intros a' [Hex Hgood].
      assert (∃ w, a' !! var = Some w) as [w Hw].
      { apply elem_of_dom. destruct Hex as (_ & -> & _). by eapply elem_of_dom_2. }
      assert (w ∈ d) as Hwd.
      { destruct Hex as (_ & _ & Hvals).
        destruct (Hvals _ _ Hw) as [?|(d' & Hd' & ?)]; congruence. }
      assert (w ∈ values) as Hwv by (by rewrite Hperm).
      apply (Hres w Hwv a'). split; [|done]. by apply extension_narrow.
Qed.

(** ** AC-3 on a well-formed puzzle *)

Lemma store_ok_shrinks c s s' : shrinks s s' → store_ok c s → store_ok c s'.
Proof.
  intros Hshr (Hdom & Hnode & Hvoc). split_and!.
  - by rewrite (shrinks_dom _ _ Hshr).
  - intros v d' w Hv Hw.
    destruct (shrinks_lookup _ _ _ _ Hshr Hv) as (d & Hd & Hsub).
    eapply Hnode; [done|]. by eapply sublist_subseteq.
  - intros v d' w Hv Hw.
    destruct (shrinks_lookup _ _ _ _ Hshr Hv) as (d & Hd & Hsub).
    eapply Hvoc; [done|]. by eapply sublist_subseteq.
Qed.

Lemma solution_agrees c a x y i j w w' :
  offsets_in_range c → solution c a →
  overlaps c !! (x, y) = Some (Some (i, j)) →
  a !! x = Some w → a !! y = Some w' → agree i j w w'.
Proof.
  intros Hoff (_ & _ & Hgood) Ho Hx Hy.
  destruct (offsets_in_range_lookup _ _ _ _ _ Hoff Ho) as [Hi _].
  assert (String.length w = Var.length x) as Hlen.
  { destruct (decide (String.length w = Var.length x)) as [|Hne]; [done|].
    destruct Hgood. right. left. by exists x, w. }
  rewrite <-Hlen in Hi. apply get_is_Some in Hi as [ch Hch].
  exists ch. split; [done|].
  destruct (decide (String.get i w = String.get j w')) as [Heq|Hne]; [congruence|].
  destruct Hgood. right. right. by exists x, y, i, j, w, w'.
Qed.

Lemma ac3_body_total c queue x y s o :
  wf_crossword c → store_ok c s →
  overlaps c !! (x, y) = Some o →
  ∃ r queue' s', ac3_body c queue x y s = Return (r, queue') s' ∧
    Forall (λ arc, arc ∈ queue ∨ is_Some (overlaps c !! arc)) queue' ∧
    (∀ a, solution c a → within s a → within s' a).
Proof.
  intros [Hmir Hoff] Hok Ho. unfold ac3_body.
  destruct o as [[i j]|].
  2:{ rewrite (bind_eq _ _ _ _ _ (revise_no_overlap c x y s Ho)).
      eexists _, _, _. split_and!; [done| |done].
      apply Forall_forall. auto. }
  destruct (overlaps_mirrored_lookup _ _ _ _ Hmir Ho) as (Hx & Hy & Hxy & _).
  destruct (store_ok_lookup _ _ _ Hok Hx) as [dx Hdx].
  destruct (store_ok_lookup _ _ _ Hok Hy) as [dy Hdy].
  destruct (offsets_in_range_lookup _ _ _ _ _ Hoff Ho) as [Hi Hj].
  pose proof (store_ok_indexable _ _ _ _ _ Hok Hdx Hi) as Hix.
  pose proof (store_ok_indexable _ _ _ _ _ Hok Hdy Hj) as Hjy.
  pose proof (revise_eq c x y i j dx dy s Hxy Ho Hdx Hdy) as Hrev.
  rewrite forallb_any_agree in Hrev by done.
  rewrite (bind_eq _ _ _ _ _ Hrev).
  assert (∀ a, solution c a → within s a →
            within (set_domains <[x := filter (supported i j dy) dx]> s) a)
    as Hkeep.
  { intros a Hsol Hin v w Hv. simpl. destruct (decide (x = v)) as [<-|Hne].
    - rewrite lookup_insert_eq. eexists. split; [done|].
      destruct (Hin _ _ Hv) as (d & Hd & Hw). rewrite Hdx in Hd. injection Hd as <-.
      apply list_elem_of_filter. split; [|done].
      assert (is_Some (a !! y)) as [w' Hw'].
      { apply elem_of_dom. destruct Hsol as (-> & _). done. }
      destruct (Hin _ _ Hw') as (d & Hd & Hwd). rewrite Hdy in Hd. injection Hd as <-.
      apply Exists_exists. exists w'. split; [done|].
      by eapply solution_agrees.
    - rewrite lookup_insert_ne by done. by apply Hin. }
  case_bool_decide as Hch.
  - assert (domains (set_domains <[x := filter (supported i j dy) dx]> s) !! x
            = Some (filter (supported i j dy) dx)) as Hdx'.
    { simpl. apply lookup_insert_eq. }
    rewrite (bind_eq _ _ _ _ _ (domains_get_eq _ _ _ Hdx')).
    case_bool_decide.
    + eexists _, _, _. split_and!; [done| |done]. apply Forall_forall. auto.
    + eexists _, _, _. split_and!; [done| |done].
      apply Forall_app. split; [apply Forall_forall; auto|].
      apply Forall_forall.
      intros [z x'] (z' & [= -> ->] & Hz%elem_of_elements)%list_elem_of_fmap.
      apply elem_of_difference in Hz as [(_ & _ & ij & Hz)%elem_of_neighbors _].
      right. by eexists.
  - eexists _, _, _. split_and!; [done| |done]. apply Forall_forall. auto.
Qed.

Lemma ac3_loop_total c fuel :
  wf_crossword c →
  ∀ queue s,
    store_ok c s →
    Forall (λ arc, is_Some (overlaps c !! arc)) queue →
    length queue + size (variables c) * total_words s < fuel →
    ∃ b queue' s', ac3_loop c fuel queue s = Return (b, queue') s' ∧
      shrinks s s' ∧
      (∀ a, solution c a → within s a → within s' a).
Proof.
  intros Hwf. induction fuel as [|fuel IH]; intros queue s Hok Hq Hlt; [lia|].
  simpl. destruct (list_pop queue) as [[[x y] q]|] eqn:Hpop.
  2:{ eexists _, _, _. split_and!; [done|apply shrinks_refl|done]. }
  apply list_pop_Some in Hpop as ->.
  apply Forall_app in Hq as [Hq [[o Ho] _]%Forall_cons].
  destruct (ac3_body_total c q x y s o Hwf Hok Ho) as (r & q' & s1 & Hbody & Hq' & Hkeep).
  rewrite (bind_eq _ _ _ _ _ Hbody).
  pose proof (ac3_body_progress _ _ _ _ _ _ _ _ Hbody) as [Hshr Hprog].
  destruct r as [b|]; [by eexists _, _, _|].
  destruct (IH q' s1) as (b & q'' & s2 & Hloop & Hshr' & Hkeep').
  - by eapply store_ok_shrinks.
  - eapply Forall_impl; [done|]. intros arc [Hin|?]; [|done].
    by eapply Forall_forall in Hq.
  - rewrite length_app in Hlt. simpl in Hlt.
    destruct Hprog as [[? ?]|(-> & -> & _)]; [nia|lia].
  - exists b, q'', s2. split_and!; [done|by eapply shrinks_trans|auto].
Qed.

Lemma ac3_total c s :
  wf_crossword c → store_ok c s →
  ∃ b s', ac3 c None s = Return b s' ∧ shrinks s s' ∧
    (∀ a, solution c a → within s a → within s' a).
Proof.
  intros Hwf Hok. unfold ac3, gets, bind at 1.
  destruct (ac3_loop_total c (ac3_fuel c (map_to_list (overlaps c)).*1 s) Hwf
              (map_to_list (overlaps c)).*1 s) as (b & q & s' & Hloop & Hshr & Hkeep).
  - done.
  - apply Forall_forall.
    intros [x y] ([arc o] & [= ->] & Hin%elem_of_map_to_list)%list_elem_of_fmap.
    simpl in Hin. by rewrite Hin.
  - unfold ac3_fuel. lia.
  - rewrite (bind_eq _ _ _ _ _ Hloop). by exists b, s'.
Qed.

(** ** The solver *)

Lemma init_enforced c :
  ∃ s1, enforce_node_consistency (init c) = Return () s1 ∧
    dicts s1 = [] ∧ store_ok c s1 ∧
    (∀ a, solution c a → within s1 a).
Proof.
  destruct (enforce_node_consistency_spec (init c)) as (s1 & Hs1 & Hh & Hl).
  assert (∀ v d, domains s1 !! v = Some d ↔
                 v ∈ variables c ∧ d = fits v (words c)) as Hlookup.
  { intros v d. rewrite Hl. simpl. rewrite fmap_Some. split.
    - intros (d0 & [? <-]%lookup_gset_to_gmap_Some & ->). done.
    - intros [? ->]. exists (words c). split; [|done].
      by apply lookup_gset_to_gmap_Some. }
  exists s1. split_and!; [done..| |].
  - split_and!.
    + apply set_eq. intros v. rewrite elem_of_dom. split.
      * by intros [d [? _]%Hlookup].
      * intros Hv. exists (fits v (words c)). by apply Hlookup.
    + by intros v d w [_ ->]%Hlookup [? _]%list_elem_of_filter.
    + by intros v d w [_ ->]%Hlookup [_ ?]%list_elem_of_filter.
  - intros a (Hdom & Hvoc & Hgood) v w Hv.
    exists (fits v (words c)). split.
    + apply Hlookup. split; [|done]. rewrite <-Hdom. by eapply elem_of_dom_2.
    + apply list_elem_of_filter. split; [|by eapply Hvoc].
      destruct (decide (String.length w = Var.length v)) as [|Hne]; [done|].
      destruct Hgood. right. left. by exists v, w.
Qed.

(** C1 -- Search completeness and soundness.  On a well-formed puzzle
    (overlap entries are pairs of distinct slots, mirrored, with offsets
    inside the slots), [solve()] on a fresh creator returns, without error
    and within its fuel.  If some complete assignment of vocabulary words
    satisfies all constraints, the result is a reference to an assignment
    that assigns every slot ([assignment_complete] is [True]), passes
    [consistent()] and is itself such a solution; if no such assignment
    exists, the result is [None]. *)
Theorem solve_complete_sound (c : Crossword) :
  wf_crossword c →
  ∃ res s', solve c (init c) = Return res s' ∧
    ((∃ a, solution c a) →
     ∃ r a', res = Some r ∧ dicts s' !! r = Some a' ∧
       dom a' = variables c ∧
       assignment_complete r s' = Return true s' ∧
       consistent c r s' = Return true s' ∧
       solution c a') ∧
    ((¬ ∃ a, solution c a) → res = None).
Proof.
  intros Hwf. unfold solve.
  destruct (init_enforced c) as (s1 & Hs1 & Hh1 & Hok1 & Hin1).
  rewrite (bind_eq _ _ _ _ _ Hs1).
  destruct (ac3_total c s1 Hwf Hok1) as (b & s2 & Hac3 & Hshr & Hkeep).
  rewrite (bind_eq _ _ _ _ _ Hac3).
  pose proof (store_ok_shrinks _ _ _ Hshr Hok1) as Hok2.
  assert (dicts s2 = []) as Hh2 by (destruct Hshr as [-> _]; done).
  unfold dict_new at 1, bind at 1. rewrite Hh2. simpl.
  set (s3 := set_dicts _ s2).
  unfold gets at 1, bind at 1.
  assert (store_ok c s3) as Hok3 by done.
  destruct (backtrack_spec c (backtrack_fuel s3) Hwf 0 s3 ∅ Hok3)
    as (res & s4 & Hbt & Hext & Hpost).
  { unfold s3. simpl. by rewrite Hh2. }
  { rewrite dom_empty_L. set_solver. }
  { unfold backtrack_fuel. rewrite dom_empty_L, difference_empty_L, size_dom. lia. }
  exists res, s4. split; [done|].
  assert (domains s4 = domains s2) as HD4 by apply Hext.
  assert (dom (domains s2) = variables c) as Hdom2 by apply Hok2.
  assert (∀ r a', res = Some r → dicts s4 !! r = Some a' →
            extension (domains s3) ∅ a' → ¬ violates c a' →
            dom a' = variables c ∧
            assignment_complete r s4 = Return true s4 ∧
            consistent c r s4 = Return true s4 ∧
            solution c a') as Hfound.
  { intros r a' -> Ha' (_ & Hdom & Hvals) Hgood.
    assert (dom a' = variables c) as Hdom' by (by rewrite Hdom).
    split_and!; [done| | |].
    - rewrite assignment_complete_eq, (list_lookup_total_correct _ _ _ Ha').
      rewrite bool_decide_true; [done|]. by rewrite HD4, Hdom2, Hdom'.
    - destruct (consistent_spec c r s4 (proj2 Hwf)) as ([] & Hcons & Hviol); [done|].
      rewrite (list_lookup_total_correct _ _ _ Ha') in Hviol.
      destruct Hgood. by apply Hviol.
    - split_and!; [done| |done]. intros v w Hv.
      destruct (Hvals v w Hv) as [Hemp|(d & Hd & Hw)]; [by rewrite lookup_empty in Hemp|].
      destruct Hok3 as (_ & _ & Hvoc). by eapply Hvoc. }
  split.
  - intros [a Hsol]. destruct res as [r|]; simpl in Hpost.
    + destruct Hpost as (a' & Ha' & Hex & Hcase). exists r, a'.
      split; [done|]. split; [done|]. apply Hfound; [done..|].
      destruct Hcase as [->|?]; [apply violates_empty|done].
    + destruct (Hpost a). split; [|apply Hsol]. split_and!.
      * apply map_empty_subseteq.
      * destruct Hsol as (-> & _). done.
      * intros v w Hv. right. by apply (Hkeep a Hsol (Hin1 a Hsol)).
  - intros Hnone. destruct res as [r|]; [|done]. simpl in Hpost.
    destruct Hpost as (a' & Ha' & Hex & Hcase). destruct Hnone. exists a'.
    apply (Hfound r a'); [done..|].
    destruct Hcase as [->|?]; [apply violates_empty|done].
Qed.

Lemma solve_complete_sound_witness :
  ∃ res s',
    solve (puzzle ["CAT"; "DOG"; "ARM"; "OX"])
      (init (puzzle ["CAT"; "DOG"; "ARM"; "OX"])) = Return res s' ∧
    ((∃ a, solution (puzzle ["CAT"; "DOG"; "ARM"; "OX"]) a) →
     ∃ r a', res = Some r ∧ dicts s' !! r = Some a' ∧
       dom a' = variables (puzzle ["CAT"; "DOG"; "ARM"; "OX"]) ∧
       assignment_complete r s' = Return true s' ∧
       consistent (puzzle ["CAT"; "DOG"; "ARM"; "OX"]) r s' = Return true s' ∧
       solution (puzzle ["CAT"; "DOG"; "ARM"; "OX"]) a') ∧
    ((¬ ∃ a, solution (puzzle ["CAT"; "DOG"; "ARM"; "OX"]) a) → res = None).
Proof.
  apply (solve_complete_sound (puzzle ["CAT"; "DOG"; "ARM"; "OX"])).
  split; apply (bool_decide_unpack _); vm_compute; exact I.
Defined.

(** * Further properties of the engine *)

(** ** [revise] *)

(** X1 -- [revise] only ever shrinks [x]'s domain.  Whenever [revise(x, y)]
    returns, for any two slots (the same slot twice included): the
    assignment dicts and the set of slots of the Domain Store are what they
    were, every domain other than [x]'s is untouched, [x]'s domain is a
    subsequence of what it was; a [False] result means the state did not
    change at all, a [True] result that the store holds strictly fewer
    words. *)
Theorem revise_only_shrinks (c : Crossword) (x y : Var.t) (s s' : State) (b : bool) :
  revise c x y s = Return b s' →
  dicts s' = dicts s ∧
  dom (domains s') = dom (domains s) ∧
  (∀ v, v ≠ x → domains s' !! v = domains s !! v) ∧
  (∀ d', domains s' !! x = Some d' →
     ∃ d, domains s !! x = Some d ∧ d' `sublist_of` d) ∧
  (b = false → s' = s) ∧
  (b = true → total_words s' < total_words s).
Proof.
  intros H. destruct (revise_shrinks _ _ _ _ _ _ H) as (Hshr & Hother & Hres).
  split_and!.
  - apply Hshr.
  - by apply shrinks_dom.
  - done.
  - intros d' Hd'. by eapply shrinks_lookup.
  - intros ->. by destruct Hres as [[_ ?]|[? _]].
  - intros ->. by destruct Hres as [[? _]|[_ ?]].
Qed.

Lemma revise_only_shrinks_witness :
  total_words (mkState {[ slot_across := ["CAT"]; slot_down := ["CAT"; "DOG"; "ARM"] ]} [])
  < total_words sample_state.
Proof.
  refine (proj2 (proj2 (proj2 (proj2 (proj2
    (revise_only_shrinks (puzzle []) slot_across slot_down sample_state _ true _))))) eq_refl).
  by vm_compute.
Defined.

Lemma forallb_sublist {A} (f : A → bool) (l l' : list A) :
  l' ⊆ l → forallb f l = true → forallb f l' = true.
Proof.
  rewrite !forallb_forall. intros Hsub H a Ha%list_elem_of_In.
  apply H, list_elem_of_In, Hsub, Ha.
Qed.

(** X2 -- [revise] is idempotent.  For two distinct slots, once
    [revise(x, y)] has returned, a second [revise(x, y)] returns [False]
    and leaves the state exactly as the first one left it. *)
Theorem revise_idempotent (c : Crossword) (x y : Var.t) (s s' : State) (b : bool) :
  x ≠ y →
  revise c x y s = Return b s' →
  revise c x y s' = Return false s'.
Proof.
  intros Hxy H.
  destruct (overlaps c !! (x, y)) as [[[i j]|]|] eqn:Ho.
  - assert (∃ dx dy, domains s !! x = Some dx ∧ domains s !! y = Some dy)
      as (dx & dy & Hx & Hy).
    { unfold revise, overlaps_get in H. rewrite Ho in H.
      unfold bind at 1, ret at 1 in H.
      apply bind_Return in H as (dx & s2 & [Hx ->]%domains_get_Return & H).
      apply bind_Return in H as (dy & s2 & [Hy ->]%domains_get_Return & H).
      eauto. }
    rewrite (revise_eq c x y i j dx dy s) in H by done.
    destruct (forallb _ dx) eqn:Hall; [|done]. injection H as <- <-.
    rewrite (revise_eq c x y i j (filter (supported i j dy) dx) dy).
    + rewrite (forallb_sublist _ dx) by (done || apply list_subseteq_filter).
      rewrite (filter_Forall_id (supported i j dy))
        by apply Forall_filter_self.
      rewrite bool_decide_false by (by intros ?). f_equal.
      apply set_domains_id. simpl. by rewrite lookup_insert_eq.
    + done.
    + done.
    + simpl. by rewrite lookup_insert_eq.
    + simpl. by rewrite lookup_insert_ne.
  - rewrite (revise_no_overlap c x y s Ho) in H. injection H as <- <-.
    by apply revise_no_overlap.
  - unfold revise, overlaps_get in H. by rewrite Ho in H.
Qed.

Lemma revise_idempotent_witness :
  revise (puzzle []) slot_across slot_down
    (mkState {[ slot_across := ["CAT"]; slot_down := ["CAT"; "DOG"; "ARM"] ]} [])
  = Return false
      (mkState {[ slot_across := ["CAT"]; slot_down := ["CAT"; "DOG"; "ARM"] ]} []).
Proof.
  refine (revise_idempotent (puzzle []) slot_across slot_down sample_state _ true _ _).
  - done.
  - by vm_compute.
Defined.

(** X3 -- [revise] and missing keys.  A pair of slots with no entry in the
    overlap relation raises [KeyError]; so does a pair with a defined
    overlap when [x] or [y] is no slot of the Domain Store.  A pair whose
    entry is [None] returns [False] in the same state without looking at
    the Domain Store at all. *)
Theorem revise_missing_keys (c : Crossword) (x y : Var.t) (s : State) :
  (overlaps c !! (x, y) = None → revise c x y s = Raise KeyError) ∧
  (∀ ij, overlaps c !! (x, y) = Some (Some ij) →
     domains s !! x = None ∨ domains s !! y = None →
     revise c x y s = Raise KeyError) ∧
  (overlaps c !! (x, y) = Some None → revise c x y s = Return false s).
Proof.
  split_and!.
  - intros Ho. unfold revise, overlaps_get. by rewrite Ho.
  - intros [i j] Ho Hmiss. unfold revise, overlaps_get. rewrite Ho.
    unfold bind, ret, domains_get.
    destruct (domains s !! x) as [dx|]; [|done].
    destruct Hmiss as [? | ->]; done.
  - apply revise_no_overlap.
Qed.

Lemma revise_missing_keys_witness :
  revise (puzzle []) slot_across slot_down (mkState {[ slot_across := ["CAT"] ]} [])
  = Raise KeyError.
Proof.
  destruct (revise_missing_keys (puzzle []) slot_across slot_down
              (mkState {[ slot_across := ["CAT"] ]} [])) as (_ & Hmiss & _).
  apply (Hmiss (1, 0)); [reflexivity|by right].
Defined.

Lemma any_agree_index w i j d b :
  any_agree w i j d = Some b → d ≠ [] → is_Some (String.get i w).
Proof.
  destruct d as [|w' d]; [done|]. simpl. intros H _.
  destruct (String.get i w); [by eexists|done].
Qed.

Lemma forallb_any_agree_elem i j dy dx w :
  forallb (λ w, bool_decide (is_Some (any_agree w i j dy))) dx = true →
  w ∈ dx → ∃ b, any_agree w i j dy = Some b.
Proof.
  rewrite forallb_forall. intros H Hw%list_elem_of_In.
  by apply H, bool_decide_eq_true in Hw.
Qed.

(** X4 -- [revise] never prunes a word of an agreeing assignment.  Let [a]
    be an assignment, partial or complete, whose words lie in the domains
    of their slots, which assigns [y], and in which no assigned overlapping
    pair disagrees.  Whenever [revise(x, y)] returns for distinct [x] and
    [y], the words of [a] still lie in the domains of their slots. *)
Theorem revise_keeps_agreeing_words (c : Crossword) (x y : Var.t)
    (s s' : State) (b : bool) (a : assignment) :
  x ≠ y →
  ¬ overlap_conflict c a →
  is_Some (a !! y) →
  within s a →
  revise c x y s = Return b s' →
  within s' a.
Proof.
  intros Hxy Hagree [w' Hw'] Hin H.
  destruct (overlaps c !! (x, y)) as [[[i j]|]|] eqn:Ho.
  - assert (∃ dx dy, domains s !! x = Some dx ∧ domains s !! y = Some dy)
      as (dx & dy & Hx & Hy).
    { unfold revise, overlaps_get in H. rewrite Ho in H.
      unfold bind at 1, ret at 1 in H.
      apply bind_Return in H as (dx & s2 & [Hx ->]%domains_get_Return & H).
      apply bind_Return in H as (dy & s2 & [Hy ->]%domains_get_Return & H).
      eauto. }
    rewrite (revise_eq c x y i j dx dy s) in H by done.
    destruct (forallb _ dx) eqn:Hall; [|done]. injection H as <- <-.
    intros v w Hv. simpl. destruct (decide (x = v)) as [<-|Hne].
    + rewrite lookup_insert_eq. eexists. split; [done|].
      destruct (Hin _ _ Hv) as (d & Hd & Hw). rewrite Hx in Hd. injection Hd as <-.
      destruct (Hin _ _ Hw') as (d & Hd & Hwd). rewrite Hy in Hd. injection Hd as <-.
      apply list_elem_of_filter. split; [|done].
      apply Exists_exists. exists w'. split; [done|].
      destruct (forallb_any_agree_elem _ _ _ _ _ Hall Hw) as [b' Hb'].
      destruct (any_agree_index _ _ _ _ _ Hb') as [ch Hch].
      { intros ->. by apply elem_of_nil in Hwd. }
      exists ch. split; [done|].
      destruct (decide (String.get i w = String.get j w')) as [Heq|Hneq];
        [congruence|].
      destruct Hagree. by exists x, y, i, j, w, w'.
    + rewrite lookup_insert_ne by done. by apply Hin.
  - rewrite (revise_no_overlap c x y s Ho) in H. by injection H as <- <-.
  - unfold revise, overlaps_get in H. by rewrite Ho in H.
Qed.

Lemma revise_keeps_agreeing_words_witness :
  within (mkState {[ slot_across := ["CAT"]; slot_down := ["CAT"; "DOG"; "ARM"] ]} [])
         {[ slot_across := "CAT"; slot_down := "ARM" ]}.
Proof.
  refine (revise_keeps_agreeing_words (puzzle []) slot_across slot_down
            sample_state _ true {[ slot_across := "CAT"; slot_down := "ARM" ]}
            _ _ _ _ _).
  - done.
  - intros (v1 & v2 & i & j & w1 & w2 & Ho & H1 & H2 & Hne).
    unfold puzzle in Ho. cbn [overlaps] in Ho.
    apply lookup_insert_Some in Ho as [[Hk Ho]|[_ Ho]].
    + simplify_eq. vm_compute in H1, H2. by simplify_eq.
    + apply lookup_singleton_Some in Ho as [Hk Ho].
      simplify_eq. vm_compute in H1, H2. by simplify_eq.
  - by eexists.
  - intros v w Hv.
    apply lookup_insert_Some in Hv as [[<- <-]|[_ Hv]].
    + exists ["CAT"; "DOG"; "ARM"]. split; [reflexivity|repeat constructor].
    + apply lookup_singleton_Some in Hv as [<- <-].
      exists ["CAT"; "DOG"; "ARM"]. split; [reflexivity|repeat constructor].
  - by vm_compute.
Defined.

(** ** [ac3] *)

Lemma ac3_loop_shrinks c fuel : ∀ queue s b queue' s',
  ac3_loop c fuel queue s = Return (b, queue') s' →
  shrinks s s' ∧ total_words s' ≤ total_words s.
Proof.
  induction fuel as [|fuel IH]; intros queue s b queue' s' H; [done|].
  simpl in H. destruct (list_pop queue) as [[[x y] q]|].
  2:{ unfold ret in H. simplify_eq. split; [apply shrinks_refl|done]. }
  apply bind_Return in H as ([r q1] & s1 & Hbody & H).
  apply ac3_body_progress in Hbody as [Hshr Hprog].
  assert (total_words s1 ≤ total_words s) as Htot.
  { destruct Hprog as [[? _]|(-> & _)]; lia. }
  destruct r as [b'|].
  - unfold ret in H. by simplify_eq.
  - apply IH in H as [Hshr' Htot']. split; [by eapply shrinks_trans|lia].
Qed.

Lemma ac3_Return c arcs s b s' :
  ac3 c arcs s = Return b s' →
  ∃ queue', ac3_loop c
      (ac3_fuel c (match arcs with
                   | Some arcs => arcs
                   | None => (map_to_list (overlaps c)).*1
                   end) s)
      (match arcs with
       | Some arcs => arcs
       | None => (map_to_list (overlaps c)).*1
       end) s = Return (b, queue') s'.
Proof.
  unfold ac3. intros H.
  apply bind_Return in H as (fuel & s1 & H1 & H).
  unfold gets in H1. injection H1 as <- <-.
  apply bind_Return in H as ([b' q] & s2 & Hloop & H).
  unfold ret in H. simpl in H. injection H as -> ->. eauto.
Qed.

(** X5 -- [ac3] only shrinks the Domain Store.  Whenever [ac3] returns,
    with the default queue or with a queue of the caller's, [True] or
    [False]: the assignment dicts are untouched, the Domain Store has the
    same slots, every domain is a subsequence of what it was, and the store
    holds no more words than before. *)
Theorem ac3_only_shrinks (c : Crossword) (arcs : option (list arc))
    (s s' : State) (b : bool) :
  ac3 c arcs s = Return b s' →
  dicts s' = dicts s ∧
  dom (domains s') = dom (domains s) ∧
  (∀ v d', domains s' !! v = Some d' →
     ∃ d, domains s !! v = Some d ∧ d' `sublist_of` d) ∧
  total_words s' ≤ total_words s.
Proof.
  intros [q H]%ac3_Return. apply ac3_loop_shrinks in H as [Hshr Htot].
  split_and!; [apply Hshr|by apply shrinks_dom| |done].
  intros v d' Hv. by eapply shrinks_lookup.
Qed.

Lemma ac3_only_shrinks_witness :
  total_words (mkState {[ slot_across := ["CAT"]; slot_down := ["ARM"] ]} [])
  ≤ total_words sample_state.
Proof.
  refine (proj2 (proj2 (proj2
    (ac3_only_shrinks (puzzle []) None sample_state _ true _)))).
  by vm_compute.
Defined.

(** X6 -- Fixed point with a queue of the caller's.  On a puzzle whose
    overlap relation is well formed, if every arc that is not in [arcs] is
    consistent when [ac3(arcs)] starts, then whenever it returns [True]
    every arc is consistent in the final Domain Store. *)
Theorem ac3_given_arcs_fixed_point (c : Crossword) (arcs : list arc)
    (s s' : State) :
  overlaps_mirrored c →
  (∀ x y, (x, y) ∈ arcs ∨ arc_ok c s x y) →
  ac3 c (Some arcs) s = Return true s' →
  ∀ x y i j, overlaps c !! (x, y) = Some (Some (i, j)) →
    ∃ dx dy, domains s' !! x = Some dx ∧ domains s' !! y = Some dy ∧
      ∀ w, w ∈ dx →
        ∃ w' ch, w' ∈ dy ∧ String.get i w = Some ch ∧ String.get j w' = Some ch.
Proof.
  intros Hwf Hinit [q H]%ac3_Return x y i j Ho.
  destruct (ac3_loop_invariant c _ _ _ _ _ Hwf Hinit H x y i j Ho)
    as (dx & dy & Hx & Hy & Hall).
  exists dx, dy. split_and!; [done..|]. intros w Hw.
  eapply Forall_forall in Hall; [|done].
  apply Exists_exists in Hall as (w' & Hw' & ch & ? & ?). eauto.
Qed.

Lemma ac3_given_arcs_fixed_point_witness :
  ∃ dx dy,
    domains (mkState {[ slot_across := ["CAT"]; slot_down := ["ARM"] ]} [])
      !! slot_down = Some dx ∧
    domains (mkState {[ slot_across := ["CAT"]; slot_down := ["ARM"] ]} [])
      !! slot_across = Some dy ∧
    ∀ w, w ∈ dx →
      ∃ w' ch, w' ∈ dy ∧ String.get 0 w = Some ch ∧ String.get 1 w' = Some ch.
Proof.
  apply (ac3_given_arcs_fixed_point (puzzle [])
           [(slot_across, slot_down); (slot_down, slot_across)] sample_state
           (mkState {[ slot_across := ["CAT"]; slot_down := ["ARM"] ]} [])).
  - apply (bool_decide_unpack _). by vm_compute.
  - intros x y. destruct (decide ((x, y) ∈ [(slot_across, slot_down); (slot_down, slot_across)]))
      as [|Hnot]; [by left|]. right. intros i j Ho.
    unfold puzzle in Ho. cbn [overlaps] in Ho.
    apply lookup_insert_Some in Ho as [[Hk Ho]|[_ Ho]].
    + simplify_eq. destruct Hnot. by left.
    + apply lookup_singleton_Some in Ho as [Hk Ho].
      simplify_eq. destruct Hnot. right. by left.
  - by vm_compute.
  - reflexivity.
Defined.

Lemma ac3_loop_nonempty c fuel : ∀ queue s queue' s',
  ac3_loop c fuel queue s = Return (true, queue') s' →
  ∀ v d, domains s !! v = Some d → d ≠ [] →
    ∃ d', domains s' !! v = Some d' ∧ d' ≠ [].
Proof.
  induction fuel as [|fuel IH]; intros queue s queue' s' H v d Hv Hne; [done|].
  simpl in H. destruct (list_pop queue) as [[[x y] q]|].
  2:{ unfold ret in H. simplify_eq. eauto. }
  apply bind_Return in H as ([r q1] & s1 & Hbody & H).
  unfold ac3_body in Hbody.
  apply bind_Return in Hbody as (revised & s2 & Hrev & Hbody).
  destruct (revise_shrinks _ _ _ _ _ _ Hrev) as (_ & Hother & Hres).
  destruct revised.
  - apply bind_Return in Hbody as (dx & s3 & [Hx ->]%domains_get_Return & Hbody).
    case_bool_decide as Hempty; unfold ret in Hbody; simplify_eq.
    destruct (decide (v = x)) as [->|Hvx].
    + by eapply IH.
    + eapply (IH _ _ _ _ H v d); [|done]. by rewrite Hother.
  - unfold ret in Hbody. simplify_eq.
    destruct Hres as [[_ ->]|[? _]]; [|done]. by eapply IH.
Qed.

(** X7 -- A [True] from [ac3] means no domain was emptied.  Whenever [ac3]
    returns [True], with any queue, every slot whose domain held words when
    it started still has a domain that holds words. *)
Theorem ac3_true_keeps_domains_nonempty (c : Crossword)
    (arcs : option (list arc)) (s s' : State) :
  ac3 c arcs s = Return true s' →
  ∀ v d, domains s !! v = Some d → d ≠ [] →
    ∃ d', domains s' !! v = Some d' ∧ d' ≠ [].
Proof. intros [q H]%ac3_Return. by eapply ac3_loop_nonempty. Qed.

Lemma ac3_true_keeps_domains_nonempty_witness :
  ∃ d', domains (mkState {[ slot_across := ["CAT"]; slot_down := ["ARM"] ]} [])
          !! slot_down = Some d' ∧ d' ≠ [].
Proof.
  refine (ac3_true_keeps_domains_nonempty (puzzle []) None sample_state _ _
            slot_down ["CAT"; "DOG"; "ARM"] _ _);
    [by vm_compute|reflexivity|done].
Defined.

(** X8 -- [ac3] never fails on a solvable puzzle.  On a well-formed puzzle
    with a node-consistent Domain Store of vocabulary words over the slots
    of the puzzle, [ac3()] returns without error and leaves such a store;
    and for every solution whose words lie in the domains, it returns
    [True] with the words of the solution still in the domains.  So a
    [False] from [ac3] tells that no solution lies within the domains. *)
Theorem ac3_keeps_solutions (c : Crossword) (s : State) :
  wf_crossword c → store_ok c s →
  ∃ b s', ac3 c None s = Return b s' ∧ store_ok c s' ∧
    ∀ a, solution c a → within s a → within s' a ∧ b = true.
Proof.
  intros Hwf Hok. destruct (ac3_total c s Hwf Hok) as (b & s' & H & Hshr & Hkeep).
  pose proof (store_ok_shrinks _ _ _ Hshr Hok) as Hok'.
  exists b, s'. split_and!; [done..|]. intros a Hsol Hin.
  split; [by apply Hkeep|]. destruct b; [done|].
  apply ac3_Return in H as [q H].
  apply ac3_loop_false in H as (_ & x & dx & Hx & _ & Hx').
  assert (is_Some (a !! x)) as [w Hw].
  { apply elem_of_dom. destruct Hsol as (-> & _). destruct Hok as (<- & _).
    by eapply elem_of_dom_2. }
  destruct (Hkeep a Hsol Hin x w Hw) as (d & Hd & Hwd).
  rewrite Hx' in Hd. injection Hd as <-. by apply elem_of_nil in Hwd.
Qed.

Lemma ac3_keeps_solutions_witness :
  ∃ b s', ac3 (puzzle ["CAT"; "DOG"; "ARM"]) None sample_state = Return b s' ∧
    store_ok (puzzle ["CAT"; "DOG"; "ARM"]) s' ∧
    ∀ a, solution (puzzle ["CAT"; "DOG"; "ARM"]) a → within sample_state a →
         within s' a ∧ b = true.
Proof.
  apply (ac3_keeps_solutions (puzzle ["CAT"; "DOG"; "ARM"]) sample_state).
  - split; apply (bool_decide_unpack _); by vm_compute.
  - split_and!.
    + apply (bool_decide_unpack _). by vm_compute.
    + intros v d w Hv Hw. unfold sample_state in Hv. cbn [domains] in Hv.
      apply lookup_insert_Some in Hv as [[<- <-]|[_ Hv]].
      * repeat (apply elem_of_cons in Hw as [->|Hw]; [reflexivity|]).
        by apply elem_of_nil in Hw.
      * apply lookup_singleton_Some in Hv as [<- <-].
        repeat (apply elem_of_cons in Hw as [->|Hw]; [reflexivity|]).
        by apply elem_of_nil in Hw.
    + intros v d w Hv Hw. unfold sample_state in Hv. cbn [domains] in Hv.
      apply lookup_insert_Some in Hv as [[<- <-]|[_ Hv]]; [done|].
      by apply lookup_singleton_Some in Hv as [<- <-].
Defined.

Lemma revise_at_fixed_point c x y s :
  wf_crossword c → store_ok c s →
  is_Some (overlaps c !! (x, y)) → arc_ok c s x y →
  revise c x y s = Return false s.
Proof.
  intros [Hmir Hoff] Hok [[[i j]|] Ho] Harc; [|by apply revise_no_overlap].
  destruct (Harc i j Ho) as (dx & dy & Hx & Hy & Hall).
  destruct (overlaps_mirrored_lookup _ _ _ _ Hmir Ho) as (_ & _ & Hxy & _).
  destruct (offsets_in_range_lookup _ _ _ _ _ Hoff Ho) as [Hi Hj].
  rewrite (revise_eq c x y i j dx dy s) by done.
  rewrite forallb_any_agree by (by eapply store_ok_indexable).
  rewrite (filter_Forall_id (supported i j dy)) by done.
  rewrite bool_decide_false by (by intros ?). f_equal. by apply set_domains_id.
Qed.

Lemma ac3_loop_at_fixed_point c s queue :
  wf_crossword c → store_ok c s →
  (∀ x y, arc_ok c s x y) →
  Forall (λ arc, is_Some (overlaps c !! arc)) queue →
  ∀ fuel, length queue < fuel → ac3_loop c fuel queue s = Return (true, []) s.
Proof.
  intros Hwf Hok Harcs.
  induction queue as [|[x y] queue IH] using rev_ind; intros Hq fuel Hlt.
  - destruct fuel; [lia|done].
  - destruct fuel as [|fuel]; [lia|]. simpl. rewrite list_pop_snoc.
    apply Forall_app in Hq as [Hq [Hxy _]%Forall_cons].
    unfold ac3_body, bind.
    rewrite (revise_at_fixed_point c x y s Hwf Hok Hxy (Harcs x y)).
    unfold ret. apply IH; [done|]. rewrite length_app in Hlt. simpl in Hlt. lia.
Qed.

(** X9 -- [ac3] is idempotent once it has succeeded.  On a well-formed
    puzzle with a node-consistent Domain Store over the slots of the
    puzzle, if [ac3()] returns [True] then a second [ac3()] returns [True]
    as well and changes nothing. *)
Theorem ac3_idempotent (c : Crossword) (s s' : State) :
  wf_crossword c → store_ok c s →
  ac3 c None s = Return true s' →
  ac3 c None s' = Return true s'.
Proof.
  intros Hwf Hok H. apply ac3_Return in H as [q H].
  pose proof (ac3_loop_shrinks _ _ _ _ _ _ _ H) as [Hshr _].
  pose proof (store_ok_shrinks _ _ _ Hshr Hok) as Hok'.
  assert (∀ x y, arc_ok c s' x y) as Harcs.
  { eapply ac3_loop_invariant; [apply Hwf| |done].
    intros a b. destruct (overlaps c !! (a, b)) as [o|] eqn:Hab.
    - left. apply list_elem_of_fmap. exists ((a, b), o). split; [done|].
      by apply elem_of_map_to_list.
    - right. intros i' j' Ho'. by rewrite Hab in Ho'. }
  assert (Forall (λ arc, is_Some (overlaps c !! arc))
            (map_to_list (overlaps c)).*1) as Hq.
  { apply Forall_forall.
    intros [x y] ([arc o] & [= ->] & Hin%elem_of_map_to_list)%list_elem_of_fmap.
    simpl in Hin. by rewrite Hin. }
  assert (length (map_to_list (overlaps c)).*1
          < ac3_fuel c (map_to_list (overlaps c)).*1 s') as Hlt.
  { unfold ac3_fuel. lia. }
  unfold ac3, gets, bind at 1.
  by rewrite (bind_eq _ _ _ _ _
                (ac3_loop_at_fixed_point c s' _ Hwf Hok' Harcs Hq _ Hlt)).
Qed.

Lemma ac3_idempotent_witness :
  ac3 (puzzle ["CAT"; "DOG"; "ARM"]) None
    (mkState {[ slot_across := ["CAT"]; slot_down := ["ARM"] ]} [])
  = Return true (mkState {[ slot_across := ["CAT"]; slot_down := ["ARM"] ]} []).
Proof.
  apply (ac3_idempotent (puzzle ["CAT"; "DOG"; "ARM"]) sample_state).
  - split; apply (bool_decide_unpack _); by vm_compute.
  - split_and!.
    + apply (bool_decide_unpack _). by vm_compute.
    + intros v d w Hv Hw. unfold sample_state in Hv. cbn [domains] in Hv.
      apply lookup_insert_Some in Hv as [[<- <-]|[_ Hv]].
      * repeat (apply elem_of_cons in Hw as [->|Hw]; [reflexivity|]).
        by apply elem_of_nil in Hw.
      * apply lookup_singleton_Some in Hv as [<- <-].
        repeat (apply elem_of_cons in Hw as [->|Hw]; [reflexivity|]).
        by apply elem_of_nil in Hw.
    + intros v d w Hv Hw. unfold sample_state in Hv. cbn [domains] in Hv.
      apply lookup_insert_Some in Hv as [[<- <-]|[_ Hv]]; [done|].
      by apply lookup_singleton_Some in Hv as [<- <-].
  - by vm_compute.
Defined.

(** ** Sorting with a key *)

Section stable_sort.
Context {A K : Type} `{!EqDecision K} (le : K → K → bool).
Context (le_refl : ∀ a, le a a = true).
Context (le_total : ∀ a b, le a b = false → le b a = true).
Context (le_trans : ∀ a b c, le a b = true → le b c = true → le a c = true).

Lemma insert_by_sorted (x : K * A) l :
  StronglySorted (λ p q, le p.1 q.1 = true) l →
  StronglySorted (λ p q, le p.1 q.1 = true) (insert_by le x l).
Proof using le_total le_trans.
  induction 1 as [|y l Hl IH Hy]; simpl.
  - repeat constructor.
  - destruct (le x.1 y.1) eqn:Hxy.
    + constructor; [by constructor|]. constructor; [done|].
      eapply Forall_impl; [done|]. intros z Hz. by eapply le_trans.
    + constructor; [done|]. rewrite insert_by_perm. constructor; [|done].
      by apply le_total.
Qed.

Lemma stable_sort_sorted (l : list (K * A)) :
  StronglySorted (λ p q, le p.1 q.1 = true) (stable_sort le l).
Proof using le_total le_trans.
  induction l as [|x l IH]; simpl; [constructor|]. by apply insert_by_sorted.
Qed.

Lemma insert_by_filter k (x : K * A) l :
  filter (λ p, p.1 = k) (insert_by le x l) = filter (λ p, p.1 = k) (x :: l).
Proof using le_refl.
  induction l as [|y l IH]; simpl; [done|].
  destruct (le x.1 y.1) eqn:Hxy; [done|].
  rewrite filter_cons, IH, !filter_cons.
  destruct (decide (y.1 = k)) as [Hy|Hy]; [|done].
  destruct (decide (x.1 = k)) as [Hx|Hx]; [|done].
  rewrite Hx, Hy, le_refl in Hxy. done.
Qed.

Lemma stable_sort_filter k (l : list (K * A)) :
  filter (λ p, p.1 = k) (stable_sort le l) = filter (λ p, p.1 = k) l.
Proof using le_refl.
  induction l as [|x l IH]; simpl; [done|].
  by rewrite insert_by_filter, !filter_cons, IH.
Qed.
End stable_sort.

Lemma filter_decorated {A K} `{!EqDecision K} (f : A → K) (k : K) (l : list A) :
  filter (λ p : K * A, p.1 = k) ((λ x, (f x, x)) <$> l)
  = (λ x, (f x, x)) <$> filter (λ v, f v = k) l.
Proof.
  induction l as [|x l IH]; [done|]. csimpl. rewrite !filter_cons, IH. simpl.
  by destruct (decide (f x = k)).
Qed.

Lemma decorated_snd {A K} (f : A → K) (sl : list (K * A)) (l : list A) :
  sl ≡ₚ (λ x, (f x, x)) <$> l → sl = (λ x, (f x, x)) <$> sl.*2.
Proof.
  intros Hperm.
  assert (Forall (λ p, p = (f p.2, p.2)) sl) as Hall.
  { rewrite Hperm. apply Forall_fmap, Forall_forall. done. }
  clear Hperm. induction Hall as [|p sl Hp _ IH]; [done|].
  csimpl. by rewrite <-Hp, <-IH.
Qed.

Lemma StronglySorted_fmap_inv {A B} (g : A → B) (R1 : relation B)
    (R2 : relation A) (l : list A) :
  (∀ x y, R1 (g x) (g y) → R2 x y) →
  StronglySorted R1 (g <$> l) → StronglySorted R2 l.
Proof.
  intros HR. induction l as [|x l IH]; csimpl; [constructor|].
  intros [Hl Hx]%StronglySorted_inv. constructor; [by apply IH|].
  rewrite Forall_fmap in Hx. eapply Forall_impl; [exact Hx|].
  intros y Hy. by apply HR.
Qed.

Lemma StronglySorted_lookup {A} (R : relation A) (l : list A) :
  StronglySorted R l →
  ∀ i j x y, i < j → l !! i = Some x → l !! j = Some y → R x y.
Proof.
  induction 1 as [|z l Hl IH Hz]; intros i j x y Hij Hi Hj; [done|].
  destruct j as [|j]; [lia|]. destruct i as [|i]; simpl in *.
  - injection Hi as <-. eapply Forall_forall in Hz; [done|].
    by eapply list_elem_of_lookup_2.
  - eapply IH; [|done..]. lia.
Qed.

Lemma decorate_Return {A K} (key : A → M K) (f : A → K) l s :
  (∀ x, readonly (key x)) →
  (∀ x k s1, key x s = Return k s1 → k = f x) →
  ∀ kl s', decorate key l s = Return kl s' →
    s' = s ∧ kl = (λ x, (f x, x)) <$> l.
Proof.
  intros Hro Hf. induction l as [|x l IH]; intros kl s' H; simpl in H.
  - unfold ret in H. by simplify_eq.
  - apply bind_Return in H as (k & s1 & Hk & H).
    pose proof (Hro _ _ _ _ Hk) as ->. apply Hf in Hk as ->.
    apply bind_Return in H as (kl' & s2 & Hkl & H).
    apply IH in Hkl as [-> ->]. unfold ret in H. by simplify_eq.
Qed.

Lemma sort_by_key_Return {A K} le (key : A → M K) (f : A → K) l s l' s' :
  (∀ x, readonly (key x)) →
  (∀ x k s1, key x s = Return k s1 → k = f x) →
  sort_by_key le key l s = Return l' s' →
  s' = s ∧ l' = (stable_sort le ((λ x, (f x, x)) <$> l)).*2.
Proof.
  intros Hro Hf H. unfold sort_by_key in H.
  apply bind_Return in H as (kl & s1 & Hkl & H).
  eapply decorate_Return in Hkl as [Hs Hkl]; [|done..]. subst s1 kl.
  unfold ret in H. by simplify_eq.
Qed.

(** ** [order_domain_values] *)

Lemma eliminated_count_eq c var r s value k s1 :
  count_eliminated_values c var r value var s = Return k s1 →
  k = eliminated_count c var r s value.
Proof. unfold eliminated_count. by intros ->. Qed.

Lemma order_domain_values_Return c var r s values s' :
  order_domain_values c var r s = Return values s' →
  s' = s ∧ ∃ d, domains s !! var = Some d ∧
    values = (stable_sort Nat.leb
                ((λ x, (eliminated_count c var r s x, x)) <$> d)).*2.
Proof.
  unfold order_domain_values. intros H.
  apply bind_Return in H as (d & s1 & [Hd ->]%domains_get_Return & H).
  eapply (sort_by_key_Return _ _ (eliminated_count c var r s)) in H as [-> ->].
  - eauto.
  - intros value. apply readonly_count_eliminated_values.
  - intros value k s1. apply eliminated_count_eq.
Qed.

(** X10 -- Least-constraining-value order.  Whenever
    [order_domain_values(var, assignment)] returns, the state is unchanged
    and the result is a rearrangement of [var]'s domain in ascending order
    of the count [count_eliminated_values] gives each value; values with
    the same count keep the order they have in the domain. *)
Theorem order_domain_values_sorted (c : Crossword) (var : Var.t) (r : ref)
    (s s' : State) (values : list word) :
  order_domain_values c var r s = Return values s' →
  s' = s ∧
  ∃ d, domains s !! var = Some d ∧
    values ≡ₚ d ∧
    (∀ i j v1 v2, i < j → values !! i = Some v1 → values !! j = Some v2 →
       eliminated_count c var r s v1 ≤ eliminated_count c var r s v2) ∧
    (∀ k, filter (λ v, eliminated_count c var r s v = k) values
          = filter (λ v, eliminated_count c var r s v = k) d).
Proof.
  intros (-> & d & Hd & ->)%order_domain_values_Return. split; [done|].
  exists d. split; [done|].
  set (f := eliminated_count c var r s).
  set (sl := stable_sort Nat.leb ((λ x, (f x, x)) <$> d)).
  assert (sl ≡ₚ (λ x, (f x, x)) <$> d) as Hperm by apply stable_sort_perm.
  pose proof (decorated_snd f sl d Hperm) as Hsl.
  split_and!.
  - rewrite Hperm, <-list_fmap_compose. by rewrite list_fmap_id.
  - assert (StronglySorted (λ v1 v2, f v1 ≤ f v2) sl.*2) as Hsorted.
    { eapply (StronglySorted_fmap_inv (λ x, (f x, x))
                (λ p q, Nat.leb p.1 q.1 = true)).
      - intros x y Hxy. by apply Nat.leb_le in Hxy.
      - rewrite <-Hsl. apply stable_sort_sorted.
        + intros a b Hab. apply Nat.leb_le. apply Nat.leb_gt in Hab. lia.
        + intros a b c' ?%Nat.leb_le ?%Nat.leb_le. apply Nat.leb_le. lia. }
    intros i j v1 v2. exact (StronglySorted_lookup _ _ Hsorted i j v1 v2).
  - intros k.
    assert (Inj (=) (=) (λ x : word, (f x, x))) as Hinj.
    { intros x y Hxy. by injection Hxy. }
    apply (list_fmap_eq_inj (λ x, (f x, x)) Hinj).
    rewrite <-!filter_decorated, <-Hsl.
    apply stable_sort_filter. intros a. apply Nat.leb_refl.
Qed.

Lemma order_domain_values_sorted_witness :
  eliminated_count (puzzle []) slot_across 0
    (mkState {[ slot_across := ["DOG"; "CAT"]; slot_down := ["CAT"; "DOG"; "ARM"] ]} [∅])
    "CAT"
  ≤ eliminated_count (puzzle []) slot_across 0
      (mkState {[ slot_across := ["DOG"; "CAT"]; slot_down := ["CAT"; "DOG"; "ARM"] ]} [∅])
      "DOG".
Proof.
  destruct (order_domain_values_sorted (puzzle []) slot_across 0
    (mkState {[ slot_across := ["DOG"; "CAT"]; slot_down := ["CAT"; "DOG"; "ARM"] ]} [∅])
    (mkState {[ slot_across := ["DOG"; "CAT"]; slot_down := ["CAT"; "DOG"; "ARM"] ]} [∅])
    ["CAT"; "DOG"]) as (_ & d & _ & _ & Hsorted & _); [by vm_compute|].
  apply (Hsorted 0 1); [lia|reflexivity|reflexivity].
Defined.

Lemma stable_sort_const {A K} (le : K → K → bool) (k : K) (l : list (K * A)) :
  le k k = true → Forall (λ p, p.1 = k) l → stable_sort le l = l.
Proof.
  intros Hk. induction 1 as [|x l Hx Hl IH]; simpl; [done|].
  rewrite IH. destruct l as [|y l]; [done|]. simpl.
  apply Forall_cons in Hl as [Hy _]. by rewrite Hx, Hy, Hk.
Qed.

(** X11 -- Edge cases of [order_domain_values].  A slot that is no key of
    the Domain Store raises [KeyError].  For a slot of the store whose
    neighbors are all assigned (or that has none), every count is 0 and the
    result is the domain in its own order, whatever the puzzle and the
    words; in particular an empty domain gives the empty list. *)
Theorem order_domain_values_edge_cases (c : Crossword) (var : Var.t) (r : ref)
    (s : State) :
  (domains s !! var = None →
   order_domain_values c var r s = Raise KeyError) ∧
  (∀ d, domains s !! var = Some d →
     neighbors c var ⊆ dom (dicts s !!! r) →
     order_domain_values c var r s = Return d s) ∧
  (domains s !! var = Some [] →
   order_domain_values c var r s = Return [] s).
Proof.
  split_and!.
  - intros Hvar. unfold order_domain_values, bind, domains_get. by rewrite Hvar.
  - intros d Hvar Hnb. unfold order_domain_values.
    rewrite (bind_eq _ _ _ _ _ (domains_get_eq _ _ _ Hvar)).
    assert (∀ value, count_eliminated_values c var r value var s = Return 0 s)
      as Hzero.
    { intros value. unfold count_eliminated_values, dict_read, bind.
      replace (neighbors c var ∖ dom (dicts s !!! r)) with (∅ : gset Var.t)
        by set_solver.
      by rewrite elements_empty. }
    destruct (decorate_returns
                (λ value, count_eliminated_values c var r value var) d s)
      as (kl & Hkl & Hsnd); [by eauto|].
    pose proof Hkl as Hkl'.
    eapply (decorate_Return _ (λ _, 0)) in Hkl' as [_ ->].
    2:{ intros value. apply readonly_count_eliminated_values. }
    2:{ intros value k s1. rewrite Hzero. by intros [= <- _]. }
    unfold sort_by_key. rewrite (bind_eq _ _ _ _ _ Hkl). unfold ret. f_equal.
    rewrite (stable_sort_const _ 0); [| done |].
    + rewrite <-list_fmap_compose. by rewrite list_fmap_id.
    + apply Forall_fmap, Forall_forall. done.
  - intros Hvar. unfold order_domain_values.
    by rewrite (bind_eq _ _ _ _ _ (domains_get_eq _ _ _ Hvar)).
Qed.

Lemma order_domain_values_edge_cases_witness :
  order_domain_values (puzzle []) slot_across 0
    (mkState {[ slot_across := ["DOG"; "CAT"]; slot_down := ["ARM"] ]}
             [ {[ slot_down := "ARM" ]} ])
  = Return ["DOG"; "CAT"]
      (mkState {[ slot_across := ["DOG"; "CAT"]; slot_down := ["ARM"] ]}
               [ {[ slot_down := "ARM" ]} ]).
Proof.
  destruct (order_domain_values_edge_cases (puzzle []) slot_across 0
    (mkState {[ slot_across := ["DOG"; "CAT"]; slot_down := ["ARM"] ]}
             [ {[ slot_down := "ARM" ]} ])) as (_ & Hopen & _).
  apply Hopen; [reflexivity|].
  apply (bool_decide_unpack _). by vm_compute.
Defined.

(** ** [select_unassigned_variable] *)

Lemma tuple_le_refl a : tuple_le a a = true.
Proof.
  unfold tuple_le. rewrite Nat.eqb_refl, Z.leb_refl. apply orb_true_r.
Qed.

Lemma tuple_le_iff a b :
  tuple_le a b = true ↔ a.1 < b.1 ∨ (a.1 = b.1 ∧ (a.2 ≤ b.2)%Z).
Proof.
  unfold tuple_le.
  rewrite orb_true_iff, andb_true_iff, Nat.ltb_lt, Nat.eqb_eq, Z.leb_le. done.
Qed.

Lemma tuple_le_total a b : tuple_le a b = false → tuple_le b a = true.
Proof.
  rewrite <-not_true_iff_false, !tuple_le_iff. lia.
Qed.

Lemma tuple_le_trans a b c :
  tuple_le a b = true → tuple_le b c = true → tuple_le a c = true.
Proof. rewrite !tuple_le_iff. lia. Qed.

Lemma selection_key_eq c s v k s1 :
  key_function c v s = Return k s1 → k = selection_key c s v.
Proof.
  unfold key_function, selection_key. intros H.
  apply bind_Return in H as (d & s2 & [Hd ->]%domains_get_Return & H).
  unfold ret in H. rewrite Hd. by simplify_eq.
Qed.

Lemma select_unassigned_variable_Return c r s var s' :
  select_unassigned_variable c r s = Return var s' →
  s' = s ∧
  ∃ rest,
    stable_sort tuple_le
      ((λ v, (selection_key c s v, v)) <$>
         filter (λ v, (dicts s !!! r) !! v = None) (map_to_list (domains s)).*1)
    = (selection_key c s var, var) :: rest.
Proof.
  unfold select_unassigned_variable, domains_keys, dict_read. intros H.
  unfold bind at 1 2 in H.
  apply bind_Return in H as (sorted & s1 & Hsort & H).
  eapply (sort_by_key_Return _ _ (selection_key c s)) in Hsort as [-> ->].
  2:{ intros v. apply readonly_key_function. }
  2:{ intros v k s2. apply selection_key_eq. }
  set (l := filter _ _) in *.
  pose proof (decorated_snd (selection_key c s) _ l (stable_sort_perm tuple_le _))
    as Hsl.
  destruct (stable_sort tuple_le _) as [|[k v] rest] eqn:Hsorted;
    [by unfold raise in H|].
  csimpl in H. unfold ret in H. injection H as -> ->. split; [done|].
  exists rest. csimpl in Hsl. by injection Hsl as -> _.
Qed.

Lemma select_unassigned_variable_least c r s s' var :
  select_unassigned_variable c r s = Return var s' →
  s' = s ∧
  (dicts s !!! r) !! var = None ∧
  ∃ d, domains s !! var = Some d ∧
    ∀ v dv, domains s !! v = Some dv → (dicts s !!! r) !! v = None →
      length d < length dv ∨
      (length d = length dv ∧ size (neighbors c v) ≤ size (neighbors c var)).
Proof.
  intros (-> & rest & Hsorted)%select_unassigned_variable_Return.
  split; [done|].
  set (l := filter _ _) in Hsorted.
  assert (∀ v, v ∈ l ↔ is_Some (domains s !! v) ∧ (dicts s !!! r) !! v = None)
    as Hl.
  { intros v. unfold l. rewrite list_elem_of_filter, list_elem_of_fmap. split.
    - intros [Hv ([v' d] & -> & Hin%elem_of_map_to_list)]. eauto.
    - intros [[d Hd] Hv]. split; [done|]. exists (v, d).
      split; [done|]. by apply elem_of_map_to_list. }
  pose proof (stable_sort_perm tuple_le ((λ v, (selection_key c s v, v)) <$> l))
    as Hperm.
  pose proof (stable_sort_sorted tuple_le tuple_le_total tuple_le_trans
                ((λ v, (selection_key c s v, v)) <$> l)) as Hsort.
  rewrite Hsorted in Hperm, Hsort.
  assert (var ∈ l) as [[d Hd] Hfree]%Hl.
  { assert ((selection_key c s var, var) ∈ (λ v, (selection_key c s v, v)) <$> l)
      as (v & Heq & Hv)%list_elem_of_fmap.
    { rewrite <-Hperm. by left. }
    apply (f_equal snd) in Heq. simpl in Heq. by subst v. }
  split; [done|]. exists d. split; [done|]. intros v dv Hv Hvfree.
  assert (tuple_le (selection_key c s var) (selection_key c s v) = true) as Hle.
  { assert ((selection_key c s v, v) ∈ (selection_key c s var, var) :: rest)
      as [Heq|Hin]%elem_of_cons.
    { rewrite Hperm. apply list_elem_of_fmap. exists v. split; [done|].
      apply Hl. eauto. }
    - apply (f_equal fst) in Heq. simpl in Heq. rewrite Heq.
      apply tuple_le_refl.
    - apply StronglySorted_inv in Hsort as [_ Hhd].
      exact (proj1 (Forall_forall _ _) Hhd _ Hin). }
  apply tuple_le_iff in Hle. unfold selection_key in Hle. simpl in Hle.
  rewrite Hd, Hv in Hle. simpl in Hle. lia.
Qed.

(** X12 -- Minimum remaining values, then degree.  Whenever
    [select_unassigned_variable] returns a slot, the state is unchanged,
    the slot is a key of the Domain Store that the assignment leaves open,
    and among all such slots none has a smaller domain, nor, at equal
    domain size, more neighbors. *)
Theorem select_unassigned_variable_mrv (c : Crossword) (r : ref)
    (s s' : State) (var : Var.t) :
  select_unassigned_variable c r s = Return var s' →
  s' = s ∧
  (dicts s !!! r) !! var = None ∧
  ∃ d, domains s !! var = Some d ∧
    ∀ v dv, domains s !! v = Some dv → (dicts s !!! r) !! v = None →
      length d < length dv ∨
      (length d = length dv ∧ size (neighbors c v) ≤ size (neighbors c var)).
Proof. apply select_unassigned_variable_least. Qed.

Lemma select_unassigned_variable_mrv_witness :
  ∃ d, domains (mkState {[ slot_across := ["CAT"; "DOG"]; slot_down := ["ARM"] ]} [∅])
         !! slot_down = Some d ∧
    ∀ v dv,
      domains (mkState {[ slot_across := ["CAT"; "DOG"]; slot_down := ["ARM"] ]} [∅])
        !! v = Some dv →
      (dicts (mkState {[ slot_across := ["CAT"; "DOG"]; slot_down := ["ARM"] ]} [∅])
         !!! 0) !! v = None →
      length d < length dv ∨
      (length d = length dv ∧
       size (neighbors (puzzle []) v) ≤ size (neighbors (puzzle []) slot_down)).
Proof.
  refine (proj2 (proj2 (select_unassigned_variable_mrv (puzzle []) 0
    (mkState {[ slot_across := ["CAT"; "DOG"]; slot_down := ["ARM"] ]} [∅])
    (mkState {[ slot_across := ["CAT"; "DOG"]; slot_down := ["ARM"] ]} [∅])
    slot_down _))).
  by vm_compute.
Defined.

Lemma filter_none {A} (P : A → Prop) `{!∀ x, Decision (P x)} (l : list A) :
  (∀ x, x ∈ l → ¬ P x) → filter P l = [].
Proof.
  induction l as [|x l IH]; intros Hl; [done|].
  rewrite filter_cons, decide_False by (apply Hl; by left).
  apply IH. intros y Hy. apply Hl. by right.
Qed.

(** X13 -- [select_unassigned_variable] against [assignment_complete].
    [assignment_complete] always returns, in the state it was called in.
    When it says [True], [select_unassigned_variable] has no slot to offer
    and raises [IndexError]; when it says [False],
    [select_unassigned_variable] returns a slot. *)
Theorem select_unassigned_variable_needs_open_slot (c : Crossword) (r : ref)
    (s : State) :
  (∃ b, assignment_complete r s = Return b s) ∧
  (assignment_complete r s = Return true s →
   select_unassigned_variable c r s = Raise IndexError) ∧
  (assignment_complete r s = Return false s →
   ∃ var, select_unassigned_variable c r s = Return var s).
Proof.
  rewrite assignment_complete_eq. split_and!.
  - eauto.
  - intros [= Hc%bool_decide_eq_true].
    unfold select_unassigned_variable, domains_keys, dict_read.
    unfold bind at 1 2. rewrite filter_none; [done|].
    intros v [[v' d] [-> Hin%elem_of_map_to_list]]%list_elem_of_fmap Hnone.
    simpl in Hnone. apply not_elem_of_dom in Hnone. apply Hnone, Hc.
    by eapply elem_of_dom_2.
  - intros [= Hc%bool_decide_eq_false].
    assert (∃ v, v ∈ dom (domains s) ∧ (dicts s !!! r) !! v = None)
      as (v & Hv & Hfree).
    { apply dec_stable. intros Hn. apply Hc. intros v Hv.
      apply elem_of_dom. destruct ((dicts s !!! r) !! v) eqn:Hav; [done|].
      destruct Hn. eauto. }
    apply elem_of_dom in Hv.
    destruct (select_unassigned_variable_returns c s r v Hv Hfree)
      as (var & d & Hsel & _). eauto.
Qed.

Lemma select_unassigned_variable_needs_open_slot_witness :
  select_unassigned_variable (puzzle []) 0
    (mkState {[ slot_across := ["CAT"]; slot_down := ["ARM"] ]}
             [ {[ slot_across := "CAT"; slot_down := "ARM" ]} ])
  = Raise IndexError.
Proof.
  destruct (select_unassigned_variable_needs_open_slot (puzzle []) 0
    (mkState {[ slot_across := ["CAT"]; slot_down := ["ARM"] ]}
             [ {[ slot_across := "CAT"; slot_down := "ARM" ]} ]))
    as (_ & Hfull & _).
  apply Hfull. by vm_compute.
Defined.

(** ** [consistent] *)

Lemma consistent_overlaps_empty items :
  consistent_overlaps ∅ items = Some true.
Proof.
  induction items as [|[[v1 v2] o] items IH]; simpl; [done|].
  by rewrite lookup_empty.
Qed.

Lemma consistent_overlaps_sub (a a' : assignment) items :
  a ⊆ a' →
  consistent_overlaps a' items = Some true →
  consistent_overlaps a items = Some true.
Proof.
  intros Hsub. induction items as [|[[v1 v2] o] items IH]; simpl; [done|].
  intros H.
  assert (consistent_overlaps a' items = Some true) as Hrest.
  { destruct (a' !! v1), (a' !! v2), o as [[i j]|]; try done.
    destruct (String.get i _); [|done]. destruct (String.get j _); [|done].
    simpl in H. by case_decide. }
  destruct (a !! v1) as [w1|] eqn:H1; [|by apply IH].
  destruct (a !! v2) as [w2|] eqn:H2; [|by apply IH].
  assert (a' !! v1 = Some w1) as H1' by (by eapply lookup_weaken).
  assert (a' !! v2 = Some w2) as H2' by (by eapply lookup_weaken).
  rewrite H1', H2' in H.
  destruct o as [[i j]|]; [|by apply IH].
  destruct (String.get i w1); [|done]. destruct (String.get j w2); [|done].
  simpl in *. case_decide; [done|by apply IH].
Qed.

Lemma violates_values_mono (a a' : assignment) :
  a ⊆ a' →
  word_reused a ∨ length_mismatch a → word_reused a' ∨ length_mismatch a'.
Proof.
  intros Hsub [(v1 & v2 & w & ? & H1 & H2)|(v & w & Hv & ?)].
  - left. exists v1, v2, w. eauto using lookup_weaken.
  - right. exists v, w. eauto using lookup_weaken.
Qed.

(** X14 -- Consistency goes down to sub-assignments.  For every puzzle and
    every two assignment dicts: if [consistent] returns [True] for one,
    it returns [True] for every dict whose bindings are among its bindings.
    On the empty dict [consistent] returns [True] whatever the puzzle, with
    no character lookup at all. *)
Theorem consistent_sub_assignment (c : Crossword) (r r' : ref) (s : State) :
  (dicts s !!! r ⊆ dicts s !!! r' →
   consistent c r' s = Return true s →
   consistent c r s = Return true s) ∧
  (dicts s !!! r = ∅ → consistent c r s = Return true s).
Proof.
  split.
  - intros Hsub H. unfold consistent, dict_read, bind at 1 in H.
    unfold consistent, dict_read, bind at 1.
    destruct (consistent_values (map_to_list (dicts s !!! r')) ∅) eqn:Hv';
      simpl in H; [|by unfold ret in H].
    apply index_checked_Return in H as [H _].
    destruct (consistent_values (map_to_list (dicts s !!! r)) ∅) eqn:Hv; simpl.
    + by rewrite (consistent_overlaps_sub _ _ _ Hsub H).
    + apply consistent_values_spec, (violates_values_mono _ _ Hsub) in Hv.
      apply consistent_values_spec in Hv. congruence.
  - intros Hempty. unfold consistent, dict_read, bind at 1. rewrite Hempty.
    rewrite map_to_list_empty. simpl. by rewrite consistent_overlaps_empty.
Qed.

Lemma consistent_sub_assignment_witness :
  consistent (puzzle []) 0
    (mkState ∅ [ {[ slot_across := "CAT" ]};
                 {[ slot_across := "CAT"; slot_down := "ARM" ]} ])
  = Return true
      (mkState ∅ [ {[ slot_across := "CAT" ]};
                   {[ slot_across := "CAT"; slot_down := "ARM" ]} ]).
Proof.
  destruct (consistent_sub_assignment (puzzle []) 0 1
    (mkState ∅ [ {[ slot_across := "CAT" ]};
                 {[ slot_across := "CAT"; slot_down := "ARM" ]} ]))
    as [Hsub _].
  apply Hsub; [|by vm_compute].
  apply (bool_decide_unpack _). by vm_compute.
Defined.

(** ** A fresh creator *)

(** X15 -- A fresh creator after node consistency.  Running
    [enforce_node_consistency] on a newly built creator returns, and gives
    every slot of the puzzle the words of the vocabulary that have its
    length, in vocabulary order; the Domain Store has no other keys and no
    assignment dict exists yet. *)
Theorem fresh_creator_node_consistent (c : Crossword) :
  ∃ s', enforce_node_consistency (init c) = Return () s' ∧
    dicts s' = [] ∧
    (∀ v, v ∈ variables c →
       domains s' !! v
       = Some (filter (λ w, String.length w = Var.length v) (words c))) ∧
    (∀ v, v ∉ variables c → domains s' !! v = None).
Proof.
  destruct (enforce_node_consistency_spec (init c)) as (s' & Hs' & Hh & Hl).
  exists s'. split_and!; [done..| |].
  - intros v Hv. rewrite Hl. simpl.
    by rewrite (proj2 (lookup_gset_to_gmap_Some _ _ _ _) (conj Hv eq_refl)).
  - intros v Hv. rewrite Hl. simpl.
    by rewrite (proj2 (lookup_gset_to_gmap_None _ _ _) Hv).
Qed.

Lemma fresh_creator_node_consistent_witness :
  ∃ s', enforce_node_consistency (init (puzzle ["CAT"; "OX"; "ARM"]))
          = Return () s' ∧
        domains s' !! slot_down = Some ["CAT"; "ARM"].
Proof.
  destruct (fresh_creator_node_consistent (puzzle ["CAT"; "OX"; "ARM"]))
    as (s' & Hs' & _ & Hin & _).
  exists s'. split; [done|]. apply Hin.
  apply (bool_decide_unpack _). by vm_compute.
Defined.

(** ** [backtrack] *)

(** The Domain Store of the sample puzzle is well formed, whatever the
    assignment dicts. *)
Ltac sample_store_ok :=
  split_and!;
  [ apply (bool_decide_unpack _); by vm_compute
  | intros v d w Hv Hw; cbn [domains] in Hv;
    apply lookup_insert_Some in Hv as [[<- <-]|[_ Hv]];
    [|apply lookup_singleton_Some in Hv as [<- <-]];
    repeat (apply elem_of_cons in Hw as [->|Hw]; [reflexivity|]);
    by apply elem_of_nil in Hw
  | intros v d w Hv Hw; cbn [domains] in Hv;
    apply lookup_insert_Some in Hv as [[<- <-]|[_ Hv]];
    [|apply lookup_singleton_Some in Hv as [<- <-]];
    done ].

Lemma violates_decided c a :
  offsets_in_range c → violates c a ∨ ¬ violates c a.
Proof.
  intros Hoff.
  destruct (consistent_spec c 0 (mkState ∅ [a]) Hoff) as ([] & _ & Hb);
    simpl in Hb.
  - right. intros Hbad%Hb. done.
  - left. by apply Hb.
Qed.

(** X16 -- Search from a partial assignment.  On a well-formed puzzle with
    a node-consistent Domain Store over its slots, [backtrack] called on
    any assignment of some of the slots returns, with one level of fuel per
    open slot and one more.  A dict it returns holds every binding of the
    given assignment, assigns every slot, takes the new words from the
    domains, and breaks no constraint unless it is the given assignment
    itself; if the given assignment breaks none, the returned one breaks
    none.  It returns [None] only when no extension of the given
    assignment over the domains is consistent. *)
Theorem backtrack_from_partial (c : Crossword) (r : ref) (s : State)
    (a : assignment) (fuel : nat) :
  wf_crossword c → store_ok c s →
  dicts s !! r = Some a → dom a ⊆ variables c →
  size (variables c ∖ dom a) < fuel →
  ∃ res s', backtrack c fuel r s = Return res s' ∧
    match res with
    | Some r' =>
        ∃ a', dicts s' !! r' = Some a' ∧
          a ⊆ a' ∧ dom a' = variables c ∧
          (∀ v w, a' !! v = Some w →
             a !! v = Some w ∨ ∃ d, domains s !! v = Some d ∧ w ∈ d) ∧
          (a' = a ∨ ¬ violates c a') ∧
          (¬ violates c a → ¬ violates c a')
    | None =>
        ∀ a', a ⊆ a' → dom a' = variables c →
          (∀ v w, a' !! v = Some w →
             a !! v = Some w ∨ ∃ d, domains s !! v = Some d ∧ w ∈ d) →
          violates c a'
    end.
Proof.
  intros Hwf Hok Hr Hdom Hfuel.
  assert (dom (domains s) = variables c) as HD by apply Hok.
  destruct (backtrack_spec c fuel Hwf r s a Hok Hr) as (res & s' & H & _ & Hpost).
  { by rewrite HD. }
  { by rewrite HD. }
  exists res, s'. split; [done|]. destruct res as [r'|]; simpl in Hpost.
  - destruct Hpost as (a' & Ha' & (Hsub & Hdom' & Hvals) & Hgood).
    exists a'. split_and!; [done|done|by rewrite Hdom'|done|done|].
    intros Ha. by destruct Hgood as [->|?].
  - intros a' Hsub Hdom' Hvals.
    destruct (violates_decided c a' (proj2 Hwf)) as [|Hgood]; [done|].
    destruct (Hpost a'). split; [|done]. split_and!; [done|by rewrite HD|done].
Qed.

Lemma backtrack_from_partial_witness :
  ∃ res s',
    backtrack (puzzle ["CAT"; "DOG"; "ARM"]) 2 0
      (mkState {[ slot_across := ["CAT"; "DOG"; "ARM"];
                  slot_down := ["CAT"; "DOG"; "ARM"] ]}
               [ {[ slot_across := "CAT" ]} ])
    = Return res s' ∧ is_Some res.
Proof.
  destruct (backtrack_from_partial (puzzle ["CAT"; "DOG"; "ARM"]) 0
    (mkState {[ slot_across := ["CAT"; "DOG"; "ARM"];
                slot_down := ["CAT"; "DOG"; "ARM"] ]}
             [ {[ slot_across := "CAT" ]} ])
    {[ slot_across := "CAT" ]} 2) as (res & s' & H & Hres).
  - split; apply (bool_decide_unpack _); by vm_compute.
  - sample_store_ok.
  - reflexivity.
  - apply (bool_decide_unpack _). by vm_compute.
  - by vm_compute.
  - exists res, s'. split; [exact H|].
    vm_compute in H. by injection H as <- _.
Defined.

(** X17 -- A complete assignment is returned as it is.  When the given
    assignment has a word for every key of the Domain Store, [backtrack]
    returns the very reference it was given, in the state it was called
    in: no dict is created and [consistent] is not consulted, so an
    inconsistent complete assignment comes back unchanged. *)
Theorem backtrack_complete_unchecked (c : Crossword) (fuel : nat) (r : ref)
    (s : State) :
  dom (domains s) ⊆ dom (dicts s !!! r) →
  backtrack c (S fuel) r s = Return (Some r) s.
Proof.
  intros Hc. simpl. rewrite (bind_eq _ _ _ _ _ (assignment_complete_eq r s)).
  by rewrite bool_decide_true.
Qed.

Lemma backtrack_complete_unchecked_witness :
  backtrack (puzzle ["CAT"; "DOG"; "ARM"]) 1 0
    (mkState {[ slot_across := ["CAT"]; slot_down := ["DOG"] ]}
             [ {[ slot_across := "DOG"; slot_down := "DOG" ]} ])
  = Return (Some 0)
      (mkState {[ slot_across := ["CAT"]; slot_down := ["DOG"] ]}
               [ {[ slot_across := "DOG"; slot_down := "DOG" ]} ]) ∧
  consistent (puzzle ["CAT"; "DOG"; "ARM"]) 0
    (mkState {[ slot_across := ["CAT"]; slot_down := ["DOG"] ]}
             [ {[ slot_across := "DOG"; slot_down := "DOG" ]} ])
  = Return false
      (mkState {[ slot_across := ["CAT"]; slot_down := ["DOG"] ]}
               [ {[ slot_across := "DOG"; slot_down := "DOG" ]} ]).
Proof.
  split; [|by vm_compute].
  apply (backtrack_complete_unchecked (puzzle ["CAT"; "DOG"; "ARM"]) 0 0).
  apply (bool_decide_unpack _). by vm_compute.
Defined.

Lemma backtrack_no_value c fuel r s v :
  domains s !! v = Some [] → (dicts s !!! r) !! v = None →
  backtrack c (S fuel) r s = Return None s.
Proof.
  intros Hv Hfree. simpl.
  rewrite (bind_eq _ _ _ _ _ (assignment_complete_eq r s)).
  rewrite bool_decide_false.
  2:{ intros Hc. apply not_elem_of_dom in Hfree. apply Hfree, Hc.
      by eapply elem_of_dom_2. }
  destruct (select_unassigned_variable_returns c s r v) as (var & d & Hsel & _);
    [done..|].
  rewrite (bind_eq _ _ _ _ _ Hsel).
  destruct (select_unassigned_variable_least _ _ _ _ _ Hsel)
    as (_ & _ & d' & Hd' & Hmin).
  assert (d' = []) as ->.
  { destruct (Hmin v [] Hv Hfree) as [?|[Hlen _]]; simpl in *; [lia|].
    by apply length_zero_iff_nil. }
  assert (order_domain_values c var r s = Return [] s) as Hvalues.
  { unfold order_domain_values.
    by rewrite (bind_eq _ _ _ _ _ (domains_get_eq _ _ _ Hd')). }
  by rewrite (bind_eq _ _ _ _ _ Hvalues).
Qed.

(** X18 -- An empty domain ends the search at once.  If some slot that the
    given assignment leaves open has an empty domain, [backtrack] returns
    [None] in the state it was called in: the slot with the fewest
    remaining values is selected, it has no value to try, and no dict is
    copied. *)
Theorem backtrack_empty_domain (c : Crossword) (fuel : nat) (r : ref)
    (s : State) (v : Var.t) :
  domains s !! v = Some [] → (dicts s !!! r) !! v = None →
  backtrack c (S fuel) r s = Return None s.
Proof. apply backtrack_no_value. Qed.

Lemma backtrack_empty_domain_witness :
  backtrack (puzzle ["CAT"; "DOG"; "ARM"]) 2 0
    (mkState {[ slot_across := ["CAT"; "DOG"; "ARM"]; slot_down := [] ]} [∅])
  = Return None
      (mkState {[ slot_across := ["CAT"; "DOG"; "ARM"]; slot_down := [] ]} [∅]).
Proof.
  apply (backtrack_empty_domain (puzzle ["CAT"; "DOG"; "ARM"]) 1 0 _ slot_down);
    by vm_compute.
Defined.

(** ** [solve] *)

(** X19 -- [solve] after a failed [ac3].  [solve] does not look at what
    [ac3] returns.  Still, when [ac3] returns [False] on the node-consistent
    store, [solve] returns [None] with no search: the only dict created is
    the empty one [backtrack] is called on, and the Domain Store is the one
    [ac3] left. *)
Theorem solve_after_failed_ac3 (c : Crossword) (s1 s2 : State) :
  enforce_node_consistency (init c) = Return () s1 →
  ac3 c None s1 = Return false s2 →
  solve c (init c) = Return None (set_dicts (λ h, h ++ [∅]) s2).
Proof.
  intros H1 H2. unfold solve.
  rewrite (bind_eq _ _ _ _ _ H1), (bind_eq _ _ _ _ _ H2).
  unfold dict_new at 1, bind at 1. unfold gets at 1, bind at 1.
  apply ac3_Return in H2 as [q H2].
  apply ac3_loop_false in H2 as (_ & x & dx & _ & _ & Hx).
  apply (backtrack_no_value c _ _ _ x); [done|]. simpl.
  rewrite lookup_total_app_r, Nat.sub_diag by done. done.
Qed.

Lemma solve_after_failed_ac3_witness :
  ∃ s', solve (puzzle ["CAT"; "DOG"]) (init (puzzle ["CAT"; "DOG"]))
        = Return None s' ∧ dicts s' = [∅].
Proof.
  eexists. split.
  - eapply (solve_after_failed_ac3 (puzzle ["CAT"; "DOG"])); by vm_compute.
  - by vm_compute.
Defined.

(** ** [letter_grid] *)

Lemma cell_of_eq v k :
  (Var.i v + (if decide (Var.direction v = Var.DOWN) then k else 0),
   Var.j v + (if decide (Var.direction v = Var.ACROSS) then k else 0))
  = cell_of v k.
Proof. unfold cell_of. destruct (Var.direction v); simpl; f_equal; lia. Qed.

Lemma grid_shape_replicate h w :
  grid_shape h w (replicate h (replicate w None)).
Proof.
  split; [apply length_replicate|].
  apply Forall_replicate, length_replicate.
Qed.

Lemma at_cell_replicate h w i j :
  i < h → j < w → at_cell (replicate h (replicate w None)) i j = Some None.
Proof.
  intros Hi Hj. unfold at_cell. rewrite lookup_replicate_2 by done. simpl.
  by apply lookup_replicate_2.
Qed.

Lemma letters_set_Some h w letters i j ch :
  grid_shape h w letters → i < h → j < w →
  ∃ letters', letters_set letters i j ch = Some letters' ∧
    grid_shape h w letters' ∧
    at_cell letters' i j = Some (Some ch) ∧
    ∀ i' j', (i', j') ≠ (i, j) → at_cell letters' i' j' = at_cell letters i' j'.
Proof.
  intros [Hh Hw] Hi Hj.
  destruct (lookup_lt_is_Some_2 letters i) as [row Hrow]; [lia|].
  pose proof (Forall_lookup_1 _ _ _ _ Hw Hrow) as Hlen. simpl in Hlen.
  unfold letters_set. rewrite Hrow. simpl.
  rewrite decide_True by lia. eexists. split; [done|]. split_and!.
  - split; [by rewrite length_insert|].
    apply Forall_insert; [done|]. by rewrite length_insert.
  - unfold at_cell. rewrite list_lookup_insert, decide_True by (split; [done|lia]).
    simpl. rewrite list_lookup_insert. by rewrite decide_True by (split; [done|lia]).
  - intros i' j' Hne. unfold at_cell. rewrite list_lookup_insert.
    case_decide as Hi'; [|done]. destruct Hi' as [<- _]. rewrite Hrow. simpl.
    apply list_lookup_insert_ne. congruence.
Qed.

Lemma letters_set_None h w letters i j ch :
  grid_shape h w letters → ¬ (i < h ∧ j < w) →
  letters_set letters i j ch = None.
Proof.
  intros [Hh Hw] Hout. unfold letters_set.
  destruct (letters !! i) as [row|] eqn:Hrow; [|done]. simpl.
  pose proof (Forall_lookup_1 _ _ _ _ Hw Hrow) as Hlen. simpl in Hlen.
  apply lookup_lt_Some in Hrow. rewrite decide_False; [done|lia].
Qed.

Lemma letter_grid_word_spec h w v word ks : ∀ letters,
  grid_shape h w letters →
  Forall (λ k, k < String.length word) ks →
  Forall (λ k, (cell_of v k).1 < h ∧ (cell_of v k).2 < w) ks →
  ∃ letters', letter_grid_word v word ks letters = Some letters' ∧
    grid_shape h w letters' ∧
    ∀ i j,
      (at_cell letters' i j = at_cell letters i j ∧
       ∀ k, k ∈ ks → cell_of v k ≠ (i, j)) ∨
      (∃ k ch, k ∈ ks ∧ cell_of v k = (i, j) ∧ String.get k word = Some ch ∧
               at_cell letters' i j = Some (Some ch)).
Proof.
  induction ks as [|k ks IH]; intros letters Hshape Hks Hin.
  - exists letters. split_and!; [done..|]. intros i j. left.
    split; [done|]. by intros k ?%elem_of_nil.
  - apply Forall_cons in Hks as [Hk Hks]. apply Forall_cons in Hin as [Hc Hin].
    apply get_is_Some in Hk as [ch Hch].
    cbn [letter_grid_word]. cbv zeta. rewrite Hch. simpl.
    pose proof (cell_of_eq v k) as Hcell. destruct (cell_of v k) as [ci cj] eqn:Hck.
    injection Hcell as -> ->. simpl in Hc.
    destruct (letters_set_Some h w letters ci cj ch Hshape)
      as (letters1 & -> & Hshape1 & Hnew & Hold); [lia..|]. simpl.
    destruct (IH letters1 Hshape1 Hks Hin) as (letters' & -> & Hshape' & Hcells).
    exists letters'. split_and!; [done..|]. intros i j.
    destruct (Hcells i j) as [[Hsame Hnone]|(k' & ch' & Hk' & Hc' & Hg & Hat)].
    + destruct (decide ((i, j) = (ci, cj))) as [[= -> ->]|Hne].
      * right. exists k, ch. rewrite Hsame. split_and!; [by left|done..].
      * left. split; [by rewrite Hsame, Hold|].
        intros k' [->|Hk']%elem_of_cons; [congruence|by apply Hnone].
    + right. exists k', ch'. split_and!; [by right|done..].
Qed.

Lemma letter_grid_word_None h w v word ks : ∀ letters,
  grid_shape h w letters →
  Forall (λ k, k < String.length word) ks →
  ¬ Forall (λ k, (cell_of v k).1 < h ∧ (cell_of v k).2 < w) ks →
  letter_grid_word v word ks letters = None.
Proof.
  induction ks as [|k ks IH]; intros letters Hshape Hks Hout.
  - by destruct Hout.
  - apply Forall_cons in Hks as [Hk Hks].
    apply get_is_Some in Hk as [ch Hch].
    cbn [letter_grid_word]. cbv zeta. rewrite Hch. simpl.
    pose proof (cell_of_eq v k) as Hcell. destruct (cell_of v k) as [ci cj] eqn:Hck.
    injection Hcell as -> ->.
    destruct (decide (ci < h ∧ cj < w)) as [[? ?]|Hc].
    + destruct (letters_set_Some h w letters ci cj ch Hshape)
        as (letters1 & -> & Hshape1 & _); [lia..|]. simpl.
      apply IH; [done..|]. intros Hin. apply Hout. apply Forall_cons.
      split; [|done]. rewrite Hck. simpl. lia.
    + by rewrite (letters_set_None h w letters ci cj ch Hshape Hc).
Qed.

Lemma Forall_offsets (word : word) :
  Forall (λ k, k < String.length word) (seq 0 (String.length word)).
Proof. apply Forall_seq. lia. Qed.

Lemma letter_grid_items_spec h w items : ∀ letters,
  grid_shape h w letters →
  Forall (item_on_grid h w) items →
  ∃ letters', letter_grid_items items letters = Some letters' ∧
    grid_shape h w letters' ∧
    ∀ i j,
      (at_cell letters' i j = at_cell letters i j ∧
       ∀ v word k, (v, word) ∈ items → k < String.length word →
                   cell_of v k ≠ (i, j)) ∨
      (∃ v word k ch, (v, word) ∈ items ∧ cell_of v k = (i, j) ∧
                      String.get k word = Some ch ∧
                      at_cell letters' i j = Some (Some ch)).
Proof.
  induction items as [|[v word] items IH]; intros letters Hshape Hin.
  - exists letters. split_and!; [done..|]. intros i j. left.
    split; [done|]. by intros v word k ?%elem_of_nil.
  - apply Forall_cons in Hin as [Hitem Hin]. cbn [letter_grid_items].
    destruct (letter_grid_word_spec h w v word _ letters Hshape
                (Forall_offsets word) Hitem)
      as (letters1 & -> & Hshape1 & Hcells1). simpl.
    destruct (IH letters1 Hshape1 Hin) as (letters' & -> & Hshape' & Hcells).
    exists letters'. split_and!; [done..|]. intros i j.
    destruct (Hcells i j)
      as [[Hsame Hnone]|(v' & word' & k' & ch' & Hv' & Hc' & Hg & Hat)].
    + destruct (Hcells1 i j) as [[Hsame1 Hnone1]|(k & ch & Hk & Hc & Hg & Hat)].
      * left. split; [by rewrite Hsame|].
        intros v' word' k [[= -> ->]|Hv']%elem_of_cons Hk.
        -- apply Hnone1. apply elem_of_seq. lia.
        -- by eapply Hnone.
      * right. exists v, word, k, ch. rewrite Hsame.
        split_and!; [by left|done..].
    + right. exists v', word', k', ch'. split_and!; [by right|done..].
Qed.

Lemma letter_grid_items_None h w items : ∀ letters,
  grid_shape h w letters →
  ¬ Forall (item_on_grid h w) items →
  letter_grid_items items letters = None.
Proof.
  induction items as [|[v word] items IH]; intros letters Hshape Hout.
  - by destruct Hout.
  - cbn [letter_grid_items].
    destruct (decide (item_on_grid h w (v, word))) as [Hitem|Hitem].
    + destruct (letter_grid_word_spec h w v word _ letters Hshape
                  (Forall_offsets word) Hitem)
        as (letters1 & -> & Hshape1 & _). simpl.
      apply IH; [done|]. intros Hin. apply Hout. by apply Forall_cons.
    + by rewrite (letter_grid_word_None h w v word _ letters Hshape
                    (Forall_offsets word) Hitem).
Qed.

Lemma on_grid_items g a :
  on_grid g a ↔ Forall (item_on_grid (height g) (width g)) (map_to_list a).
Proof.
  rewrite Forall_forall. split.
  - intros Hon [v w] Hin%elem_of_map_to_list. apply Forall_seq.
    intros k Hk. apply (Hon v w k); [done|simpl in *; lia].
  - intros Hitems v w k Hv Hk.
    apply elem_of_map_to_list, Hitems in Hv.
    unfold item_on_grid in Hv. rewrite Forall_seq in Hv. apply Hv. simpl. lia.
Qed.

(** X20 -- [letter_grid] and the bounds of the grid.  [letter_grid] writes
    one cell per character of every assigned word, starting at the slot's
    first cell, whatever the slot's length.  It returns exactly when all
    these cells are on the grid, and then gives [height] rows of [width]
    cells each, in the state it was called in; if a single character
    falls outside, it raises [IndexError]. *)
Theorem letter_grid_bounds (g : Grid) (r : ref) (s : State) :
  (on_grid g (dicts s !!! r) →
   ∃ letters, letter_grid g r s = Return letters s ∧
     length letters = height g ∧
     ∀ row, row ∈ letters → length row = width g) ∧
  (¬ on_grid g (dicts s !!! r) → letter_grid g r s = Raise IndexError).
Proof.
  unfold letter_grid, dict_read, bind. split.
  - intros Hon%on_grid_items.
    destruct (letter_grid_items_spec _ _ _ _ (grid_shape_replicate _ _) Hon)
      as (letters & -> & [Hh Hw] & _).
    exists letters. split_and!; [done..|].
    intros row Hrow. by apply (proj1 (Forall_forall _ _) Hw).
  - intros Hout. rewrite on_grid_items in Hout.
    by rewrite (letter_grid_items_None _ _ _ _ (grid_shape_replicate _ _) Hout).
Qed.

Lemma letter_grid_bounds_witness :
  ∃ letters,
    letter_grid (mkGrid 3 3) 0
      (mkState ∅ [ {[ slot_across := "CAT"; slot_down := "ARM" ]} ])
    = Return letters
        (mkState ∅ [ {[ slot_across := "CAT"; slot_down := "ARM" ]} ]) ∧
    length letters = 3 ∧ ∀ row, row ∈ letters → length row = 3.
Proof.
  apply (letter_grid_bounds (mkGrid 3 3) 0
    (mkState ∅ [ {[ slot_across := "CAT"; slot_down := "ARM" ]} ])).
  intros v w k Hv Hk. simpl in Hv.
  apply lookup_insert_Some in Hv as [[<- <-]|[_ Hv]];
    [|apply lookup_singleton_Some in Hv as [<- <-]];
    simpl in Hk; unfold cell_of; simpl; lia.
Defined.

(** X21 -- What the letter grid shows.  In the grid [letter_grid] returns,
    a cell that holds a character holds one that the assignment puts
    there (the character at some offset of some assigned word, whose cell
    it is), and a cell that holds [None] is one where the assignment puts
    nothing.  So wherever an assigned word has a character, the grid shows
    a character at that cell. *)
Theorem letter_grid_content (g : Grid) (r : ref) (s s' : State)
    (letters : list (list letter)) :
  letter_grid g r s = Return letters s' →
  ∀ i j, i < height g → j < width g →
    ∃ x, at_cell letters i j = Some x ∧
      match x with
      | Some ch => puts (dicts s !!! r) i j ch
      | None => ∀ ch, ¬ puts (dicts s !!! r) i j ch
      end.
Proof.
  unfold letter_grid, dict_read, bind. set (a := dicts s !!! r).
  intros H i j Hi Hj.
  destruct (decide (Forall (item_on_grid (height g) (width g)) (map_to_list a)))
    as [Hon|Hout].
  2:{ by rewrite (letter_grid_items_None _ _ _ _ (grid_shape_replicate _ _) Hout)
        in H. }
  destruct (letter_grid_items_spec _ _ _ _ (grid_shape_replicate _ _) Hon)
    as (letters' & Heq & _ & Hcells).
  rewrite Heq in H. unfold index_checked, ret in H. injection H as -> _.
  destruct (Hcells i j)
    as [[Hsame Hnone]|(v & w & k & ch & Hv%elem_of_map_to_list & Hc & Hg & Hat)].
  - exists None. rewrite Hsame. split; [by apply at_cell_replicate|].
    intros ch (v & w & k & Hv & Hg & Hc).
    apply (Hnone v w k); [by apply elem_of_map_to_list| |done].
    apply get_is_Some. by exists ch.
  - exists (Some ch). split; [done|]. by exists v, w, k.
Qed.

Lemma letter_grid_content_witness :
  ∃ letters,
    letter_grid (mkGrid 3 3) 0
      (mkState ∅ [ {[ slot_across := "CAT"; slot_down := "ARM" ]} ])
    = Return letters
        (mkState ∅ [ {[ slot_across := "CAT"; slot_down := "ARM" ]} ]) ∧
    ∃ x, at_cell letters 1 1 = Some x ∧
      match x with
      | Some ch => puts {[ slot_across := "CAT"; slot_down := "ARM" ]} 1 1 ch
      | None => ∀ ch, ¬ puts {[ slot_across := "CAT"; slot_down := "ARM" ]} 1 1 ch
      end.
Proof.
  assert (∃ letters,
    letter_grid (mkGrid 3 3) 0
      (mkState ∅ [ {[ slot_across := "CAT"; slot_down := "ARM" ]} ])
    = Return letters
        (mkState ∅ [ {[ slot_across := "CAT"; slot_down := "ARM" ]} ]))
    as [letters H].
  { eexists. by vm_compute. }
  exists letters. split; [exact H|].
  apply (letter_grid_content _ _ _ _ _ H 1 1); simpl; lia.
Defined.
